(** * A shallow embedding of the WAV/PCM audio package

    The package parses the fixed 44-byte header of a PCM WAVE file,
    validates it, and interleaves two mono payloads into a stereo one
    ([Merge]).  The embedding follows [audio.go] and the helper file that
    holds [checkRequiredParams] and [chooseMode].

    Conventions:
    - [uint16] and [uint32] values are [Z]; every wrap-around of the source
      is written out with [u16] and [u32];
    - a [[4]byte] array is a 4-tuple of [Byte.byte];
    - an [io.ReadSeeker] is a reference (a key) into a store of reader
      states, so that two handles over the same source share its cursor;
    - Go's [error] values are an inductive type, [nil] being [None];
    - the [for] loops get a fuel argument; [OutOfFuel] is the answer of a
      run that needed more iterations than it was given. *)

From Stdlib Require Import ZArith List Strings.String Strings.Byte Bool Lia.
From stdpp Require Import base option list gmap.
Import ListNotations.

Local Open Scope string_scope.
Local Open Scope list_scope.
Local Open Scope Z_scope.

(** ** Bytes and fixed-width integers *)

(** Value of a byte, and Go's conversion [byte(v)], which truncates. *)
Definition byte_val (b : byte) : Z := Z.of_N (Byte.to_N b).

Definition byte_of (z : Z) : byte :=
  default x00 (Byte.of_N (Z.to_N (z mod 256))).

Definition u16 (z : Z) : Z := z mod 2 ^ 16.
Definition u32 (z : Z) : Z := z mod 2 ^ 32.

Definition is_u16 (z : Z) : Prop := 0 <= z < 2 ^ 16.
Definition is_u32 (z : Z) : Prop := 0 <= z < 2 ^ 32.

(** [encoding/binary]'s little-endian byte order, as the library writes it. *)
Module LittleEndian.

Definition PutUint16 (v : Z) : list byte :=
  [byte_of v; byte_of (Z.shiftr v 8)].

Definition PutUint32 (v : Z) : list byte :=
  [byte_of v; byte_of (Z.shiftr v 8);
   byte_of (Z.shiftr v 16); byte_of (Z.shiftr v 24)].

Definition Uint16 (b0 b1 : byte) : Z :=
  Z.lor (byte_val b0) (Z.shiftl (byte_val b1) 8).

Definition Uint32 (b0 b1 b2 b3 : byte) : Z :=
  Z.lor (Z.lor (Z.lor (byte_val b0) (Z.shiftl (byte_val b1) 8))
               (Z.shiftl (byte_val b2) 16))
        (Z.shiftl (byte_val b3) 24).

End LittleEndian.

(** A [[4]byte] array. *)
Definition array4 : Type := (byte * byte * byte * byte)%type.

(** [a[:]], the slice over the whole array. *)
Definition slice4 (a : array4) : list byte :=
  let '(b0, b1, b2, b3) := a in [b0; b1; b2; b3].

(** [[4]byte(s)]: the first four elements of the slice.  Go panics on a
    shorter slice; the package converts its four 4-letter constants only. *)
Definition to_array4 (s : list byte) : array4 :=
  match s with
  | b0 :: b1 :: b2 :: b3 :: _ => (b0, b1, b2, b3)
  | _ => (x00, x00, x00, x00)
  end.

(** ** Constants of the format *)

Definition chunkID : string := "RIFF".
Definition format : string := "WAVE".
Definition subChunkID : string := "fmt ".
Definition subChunk1Size : Z := 16.
Definition audioFormat : Z := 1.
Definition subChunk2ID : string := "data".
Definition mono : Z := 1.
Definition stereo : Z := 2.

(** ** The header record *)

Record headers : Type := mkHeaders {
  ChunkID : array4;
  ChunkSize : Z;
  Format : array4;
  SubChunk1ID : array4;
  SubChunk1Size : Z;
  AudioFormat : Z;
  NumChannels : Z;
  SampleRate : Z;
  ByteRate : Z;
  BlockAlign : Z;
  BitsPerSample : Z;
  SubChunk2ID : array4;
  SubChunk2Size : Z
}.

(** The values the Go type admits: every integer field within its width. *)
Record wf_headers (h : headers) : Prop := mkWf {
  wf_ChunkSize : is_u32 (ChunkSize h);
  wf_SubChunk1Size : is_u32 (SubChunk1Size h);
  wf_AudioFormat : is_u16 (AudioFormat h);
  wf_NumChannels : is_u16 (NumChannels h);
  wf_SampleRate : is_u32 (SampleRate h);
  wf_ByteRate : is_u32 (ByteRate h);
  wf_BlockAlign : is_u16 (BlockAlign h);
  wf_BitsPerSample : is_u16 (BitsPerSample h);
  wf_SubChunk2Size : is_u32 (SubChunk2Size h)
}.

(** [binary.Write] of a [headers] value: the fields in declaration order,
    arrays byte by byte, integers little-endian. *)
Definition encode_headers (h : headers) : list byte :=
  slice4 (ChunkID h)
  ++ LittleEndian.PutUint32 (ChunkSize h)
  ++ slice4 (Format h)
  ++ slice4 (SubChunk1ID h)
  ++ LittleEndian.PutUint32 (SubChunk1Size h)
  ++ LittleEndian.PutUint16 (AudioFormat h)
  ++ LittleEndian.PutUint16 (NumChannels h)
  ++ LittleEndian.PutUint32 (SampleRate h)
  ++ LittleEndian.PutUint32 (ByteRate h)
  ++ LittleEndian.PutUint16 (BlockAlign h)
  ++ LittleEndian.PutUint16 (BitsPerSample h)
  ++ slice4 (SubChunk2ID h)
  ++ LittleEndian.PutUint32 (SubChunk2Size h).

(** The size [binary.Read] computes for the record. *)
Definition headers_size : nat := 44.

(** [binary.Read]'s decoding of a full 44-byte buffer into the record;
    [None] on a buffer of another length (the library never decodes one). *)
Definition decode_headers (bs : list byte) : option headers :=
  match bs with
  | [c0; c1; c2; c3; s0; s1; s2; s3; f0; f1; f2; f3; i0; i1; i2; i3;
     z0; z1; z2; z3; a0; a1; n0; n1; r0; r1; r2; r3; y0; y1; y2; y3;
     k0; k1; p0; p1; d0; d1; d2; d3; e0; e1; e2; e3] =>
      Some {| ChunkID := (c0, c1, c2, c3);
              ChunkSize := LittleEndian.Uint32 s0 s1 s2 s3;
              Format := (f0, f1, f2, f3);
              SubChunk1ID := (i0, i1, i2, i3);
              SubChunk1Size := LittleEndian.Uint32 z0 z1 z2 z3;
              AudioFormat := LittleEndian.Uint16 a0 a1;
              NumChannels := LittleEndian.Uint16 n0 n1;
              SampleRate := LittleEndian.Uint32 r0 r1 r2 r3;
              ByteRate := LittleEndian.Uint32 y0 y1 y2 y3;
              BlockAlign := LittleEndian.Uint16 k0 k1;
              BitsPerSample := LittleEndian.Uint16 p0 p1;
              SubChunk2ID := (d0, d1, d2, d3);
              SubChunk2Size := LittleEndian.Uint32 e0 e1 e2 e3 |}
  | _ => None
  end.

(** ** Errors *)

(** Go's [error] values that the package meets: the two sentinels of [io]
    and the values made by [errors.New] and [fmt.Errorf].  A sentinel is
    equal to itself only. *)
Inductive error : Type :=
  | EOF
  | ErrUnexpectedEOF
  | errors_New (msg : string).

Definition Error (e : error) : string :=
  match e with
  | EOF => "EOF"
  | ErrUnexpectedEOF => "unexpected EOF"
  | errors_New msg => msg
  end.

(** An [error] variable: [None] is [nil]. *)
Definition is_nil (e : option error) : bool :=
  match e with None => true | Some _ => false end.

Definition is_EOF (e : option error) : bool :=
  match e with Some EOF => true | _ => false end.

(** [fmt.Errorf(prefix + "%v", err)]. *)
Definition Errorf (prefix : string) (err : option error) : error :=
  errors_New (String.append prefix
                (match err with None => "<nil>" | Some e => Error e end)).

(** ** The I/O interfaces *)

Inductive whence : Type := SeekStart | SeekCurrent | SeekEnd.

(** [io.ReadSeeker].  [Read r n] is a call with a buffer of [n] bytes: it
    answers the bytes it stored at the front of the buffer (at most [n] of
    them, by the contract of [io.Reader]) and an error. *)
Class ReadSeeker (R : Type) : Type := {
  Read : R -> nat -> R * list byte * option error;
  Seek : R -> Z -> whence -> R * Z * option error
}.

(** [io.Writer]. *)
Class Writer (W : Type) : Type := {
  Write : W -> list byte -> W * nat * option error
}.

(** The caller's buffer after a [Read] that stored [d] at its front. *)
Definition fill (buf d : list byte) : list byte := d ++ skipn (length d) buf.

(** [make([]byte, n)]. *)
Definition make (n : nat) : list byte := repeat x00 n.

(** *** [bytes.Reader]: an in-memory source with a cursor

    The cursor [i] is never negative ([Seek] refuses to make it so), hence a
    [nat].  A read gives what is left, up to the buffer's length, with a
    [nil] error, and [0, io.EOF] once the cursor is at or past the end;
    [os.File] on a regular file does the same with a buffer that is not
    empty. *)
Record Reader : Type := mkReader { s : list byte; i : nat }.

Definition Reader_Read (r : Reader) (n : nat) : Reader * list byte * option error :=
  if (length (s r) <=? i r)%nat then (r, [], Some EOF)
  else
    let d := firstn n (skipn (i r) (s r)) in
    ({| s := s r; i := (i r + length d)%nat |}, d, None).

Definition Reader_Seek (r : Reader) (offset : Z) (w : whence)
  : Reader * Z * option error :=
  let abs := match w with
             | SeekStart => offset
             | SeekCurrent => Z.of_nat (i r) + offset
             | SeekEnd => Z.of_nat (length (s r)) + offset
             end in
  if abs <? 0 then (r, 0, Some (errors_New "bytes.Reader.Seek: negative position"))
  else ({| s := s r; i := Z.to_nat abs |}, abs, None).

#[export] Instance Reader_ReadSeeker : ReadSeeker Reader :=
  {| Read := Reader_Read; Seek := Reader_Seek |}.

(** *** [bytes.Buffer] as a sink: it appends and never fails *)
Definition Buffer : Type := list byte.

Definition Buffer_Write (b : Buffer) (p : list byte) : Buffer * nat * option error :=
  (b ++ p, length p, None).

#[export] Instance Buffer_Writer : Writer Buffer := {| Write := Buffer_Write |}.

(** *** A sink of bounded capacity, whose writes can fail

    It takes what fits and reports [io.ErrShortWrite]-like failure for the
    rest; it stands for a full disk or a closed pipe. *)
Record Limited : Type := mkLimited { written : list byte; room : nat }.

Definition Limited_Write (l : Limited) (p : list byte) : Limited * nat * option error :=
  if (length p <=? room l)%nat
  then ({| written := written l ++ p; room := room l - length p |}, length p, None)
  else ({| written := written l ++ firstn (room l) p; room := 0 |}, room l,
        Some (errors_New "short write")).

#[export] Instance Limited_Writer : Writer Limited := {| Write := Limited_Write |}.

(** ** The handle *)

(** [PCMAudio]: the embedded record, a reference to the source, the flag. *)
Record PCMAudio : Type := mkPCMAudio {
  headers_of :> headers;
  data : nat;
  valid : bool
}.

Definition string_of (bs : list byte) : string := string_of_list_byte bs.

(** [Validate] sets [p.valid] on success and leaves the handle as it is on
    failure; it answers the handle after the call with the two results. *)
Definition Validate (p : PCMAudio) : PCMAudio * (bool * option error) :=
  if negb (String.eqb (string_of (slice4 (ChunkID p))) chunkID) then
    (p, (false, Some (errors_New "RIFF header doesn't match")))
  else if negb (String.eqb (string_of (slice4 (Format p))) format) then
    (p, (false, Some (errors_New "audio format doesn't match")))
  else if negb (String.eqb (string_of (slice4 (SubChunk1ID p))) subChunkID) then
    (p, (false, Some (errors_New "subchunk fmt doesn't match")))
  else if negb (SubChunk1Size p =? subChunk1Size) || negb (AudioFormat p =? audioFormat) then
    (p, (false, Some (errors_New "provided data is not PCM audio")))
  else if negb (String.eqb (string_of (slice4 (SubChunk2ID p))) subChunk2ID) then
    (p, (false, Some (errors_New "data header doesn't match")))
  else
    ({| headers_of := headers_of p; data := data p; valid := true |}, (true, None)).

(** [checkRequiredParams]. *)
Definition checkRequiredParams (left right : PCMAudio) : option error :=
  if negb (valid left) || negb (valid right) then
    Some (errors_New "validate each audio file first")
  else if negb (SampleRate left =? SampleRate right) then
    Some (errors_New "rate of both audio files must match")
  else if negb (BitsPerSample left =? BitsPerSample right) then
    Some (errors_New "bits per sample of both audio files must match")
  else if negb (NumChannels left =? NumChannels right) then
    Some (errors_New "number of channels of both audio files must match")
  else None.

(** [chooseMode]. *)
Definition chooseMode (left right : PCMAudio) : Z :=
  if (NumChannels left =? mono) && (NumChannels right =? mono) then mono
  else stereo.

(** ** Running code against the sources and the sink *)

(** How a piece of a function body ends: it falls through to the next
    statement with a value, or the function executed [return e], or a nil
    dereference panicked, or a loop was cut short by the fuel. *)
Inductive result (S E A : Type) : Type :=
  | Next (a : A) (w : S)
  | Return (e : E) (w : S)
  | Panic
  | OutOfFuel.
Arguments Next {S E A} a w.
Arguments Return {S E A} e w.
Arguments Panic {S E A}.
Arguments OutOfFuel {S E A}.

Section Package.
Context {R W : Type} `{!ReadSeeker R} `{!Writer W}.

(** The sources that handles refer to, by key, and the output sink. *)
Record world : Type := mkWorld { sources : gmap nat R; sink : W }.

Definition M (E A : Type) : Type := world -> result world E A.

#[export] Instance M_ret {E} : MRet (M E) := fun A a w => Next a w.

#[export] Instance M_bind {E} : MBind (M E) := fun A B f m w =>
  match m w with
  | Next a w' => f a w'
  | Return e w' => Return e w'
  | Panic => Panic
  | OutOfFuel => OutOfFuel
  end.

Definition return_ {E A} (e : E) : M E A := fun w => Return e w.
Definition out_of_fuel {E A} : M E A := fun _ => OutOfFuel.
Definition when {E} (b : bool) (m : M E unit) : M E unit :=
  if b then m else mret tt.

(** [r.Read(buf)] with [len(buf) = n], [r] the source under key [k]. *)
Definition Read_at {E} (k : nat) (n : nat) : M E (list byte * option error) :=
  fun w =>
    match sources w !! k with
    | None => Panic
    | Some r =>
        let '(r', d, err) := Read r n in
        Next (d, err) {| sources := <[k := r']> (sources w); sink := sink w |}
    end.

Definition Seek_at {E} (k : nat) (offset : Z) (wh : whence) : M E (Z * option error) :=
  fun w =>
    match sources w !! k with
    | None => Panic
    | Some r =>
        let '(r', pos, err) := Seek r offset wh in
        Next (pos, err) {| sources := <[k := r']> (sources w); sink := sink w |}
    end.

(** [output.Write(p)]. *)
Definition Write_out {E} (p : list byte) : M E (nat * option error) :=
  fun w =>
    let '(o', n, err) := Write (sink w) p in
    Next (n, err) {| sources := sources w; sink := o' |}.

(** [binary.Write(output, binary.LittleEndian, h)]: one [Write] of the
    encoded record. *)
Definition binary_Write {E} (h : headers) : M E (option error) :=
  '(_, err) ← Write_out (encode_headers h);
  mret err.

(** The loop of [io.ReadAtLeast]: read into the rest of the buffer while
    fewer than [min] bytes are in and no error came. *)
Fixpoint ReadAtLeast_loop {E} (fuel : nat) (k : nat) (min : nat)
    (acc : list byte) (err : option error) : M E (list byte * option error) :=
  if (length acc <? min)%nat && is_nil err then
    match fuel with
    | O => out_of_fuel
    | S fuel =>
        '(d, err) ← Read_at k (min - length acc);
        ReadAtLeast_loop fuel k min (acc ++ d) err
    end
  else mret (acc, err).

(** [io.ReadFull(r, buf)] with [len(buf) = size]. *)
Definition ReadFull {E} (fuel : nat) (k : nat) (size : nat)
  : M E (list byte * option error) :=
  '(acc, err) ← ReadAtLeast_loop fuel k size [] None;
  if (size <=? length acc)%nat then mret (acc, None)
  else if (0 <? length acc)%nat && is_EOF err then mret (acc, Some ErrUnexpectedEOF)
  else mret (acc, err).

(** The zero value of the record, what [var p PCMAudio] holds. *)
Definition zero_headers : headers :=
  let z := (x00, x00, x00, x00) in
  mkHeaders z 0 z z 0 0 0 0 0 0 0 z 0.

(** [binary.Read(data, binary.LittleEndian, &h)]: fill a 44-byte buffer,
    then decode it; on an error the record is left as it was. *)
Definition binary_Read {E} (fuel : nat) (k : nat) : M E (headers * option error) :=
  '(buf, err) ← ReadFull fuel k headers_size;
  if is_nil err
  then mret (default zero_headers (decode_headers (firstn headers_size buf)), None)
  else mret (zero_headers, err).

(** [NewPCMAudio]. *)
Definition NewPCMAudio (fuel : nat) (data : nat)
  : M (option PCMAudio * option error) Empty_set :=
  '(h, err) ← binary_Read fuel data;
  when (negb (is_nil err))
    (return_ (None, Some (Errorf "could not read and parse the recieved data: " err)));;
  return_ (Some {| headers_of := h; data := data; valid := false |}, None).

(** The [for] loop of [Merge]. *)
Fixpoint Merge_loop (fuel : nat) (p other : PCMAudio) (sampleSize : nat)
    (bufLeft bufRight : list byte) : M (option error) unit :=
  match fuel with
  | O => out_of_fuel
  | S fuel =>
      '(dL, errL) ← Read_at (data p) (length bufLeft);
      let bufLeft := fill bufLeft dL in
      let nL := length dL in
      when (negb (is_nil errL) && negb (is_EOF errL))
        (return_ (Some (Errorf "error reading left: " errL)));;
      '(dR, errR) ← Read_at (data other) (length bufRight);
      let bufRight := fill bufRight dR in
      let nR := length dR in
      when (negb (is_nil errR) && negb (is_EOF errR))
        (return_ (Some (Errorf "error reading right: " errR)));;
      (* both data are consumed *)
      if (is_EOF errL || (nL =? 0)%nat) && (is_EOF errR || (nR =? 0)%nat) then
        mret tt
      else
        (if (nL =? sampleSize)%nat then
           '(_, errW) ← Write_out bufLeft;
           when (negb (is_nil errW))
             (return_ (Some (Errorf "error writing left sample: " errW)))
         else
           let zeros := make sampleSize in
           '(_, errW) ← Write_out zeros;
           when (negb (is_nil errW))
             (return_ (Some (Errorf "error writing zero sample for left: " errW))));;
        (if (nR =? sampleSize)%nat then
           '(_, errW) ← Write_out bufRight;
           when (negb (is_nil errW))
             (return_ (Some (Errorf "error writing right sample: " errW)))
         else
           let zeros := make sampleSize in
           '(_, errW) ← Write_out zeros;
           when (negb (is_nil errW))
             (return_ (Some (Errorf "error writing zero sample for right: " errW))));;
        if is_EOF errL || is_EOF errR then mret tt
        else Merge_loop fuel p other sampleSize bufLeft bufRight
  end.

(** The header [Merge] builds for its output. *)
Definition Merge_headers (p other : PCMAudio) : headers :=
  let newChunkSize := u32 (u32 (36 + SubChunk2Size p) + SubChunk2Size other) in
  let newBlockAlign := u16 (stereo * (BitsPerSample p / 8)) in
  let newSubChunk2Size := u32 (SubChunk2Size p + SubChunk2Size other) in
  {| ChunkID := to_array4 (list_byte_of_string chunkID);
     ChunkSize := newChunkSize;
     Format := to_array4 (list_byte_of_string format);
     SubChunk1ID := to_array4 (list_byte_of_string subChunkID);
     SubChunk1Size := subChunk1Size;
     AudioFormat := audioFormat;
     NumChannels := stereo;
     SampleRate := SampleRate p;
     ByteRate := u32 (SampleRate p * newBlockAlign);
     BlockAlign := newBlockAlign;
     BitsPerSample := BitsPerSample p;
     SubChunk2ID := to_array4 (list_byte_of_string subChunk2ID);
     SubChunk2Size := newSubChunk2Size |}.

(** [p.Merge(other, output)], [output] being the sink of the world. *)
Definition Merge (fuel : nat) (p other : PCMAudio) : M (option error) Empty_set :=
  if negb (valid p) || negb (valid other) then
    return_ (Some (errors_New "validate each audio file first"))
  else if negb (SampleRate p =? SampleRate other) then
    return_ (Some (errors_New "rate of both audio files must match"))
  else if negb (BitsPerSample p =? BitsPerSample other) then
    return_ (Some (errors_New "bits per sample of both audio files must match"))
  else
    let newHeaders := Merge_headers p other in
    err ← binary_Write newHeaders;
    when (negb (is_nil err))
      (return_ (Some (Errorf "could not write headers: " err)));;
    '(_, err) ← Seek_at (data p) 44 SeekStart;
    when (negb (is_nil err))
      (return_ (Some (Errorf "could not seek left: " err)));;
    '(_, err) ← Seek_at (data other) 44 SeekStart;
    when (negb (is_nil err))
      (return_ (Some (Errorf "could not seek right: " err)));;
    let sampleSize := Z.to_nat (BitsPerSample p / 8) in
    let bufLeft := make sampleSize in
    let bufRight := make sampleSize in
    Merge_loop fuel p other sampleSize bufLeft bufRight;;
    return_ None.

(** *** Concatenation *)





End Package.

(** ** The earlier, four-argument interface

    An earlier file of the package keeps the header in a [PCMAudioMetadata]
    that holds no source; its [Merge] is given the two sources beside the
    two records.  The record [meta] has the fields of [headers], in the
    same order, and is modelled by it. *)
Module Metadata.

Record PCMAudioMetadata : Type := mkPCMAudioMetadata {
  meta :> headers;
  valid : bool
}.

(** [PCMAudioMetadata.Validate]. *)
Definition Validate (p : PCMAudioMetadata) : PCMAudioMetadata * (bool * option error) :=
  if negb (String.eqb (string_of (slice4 (ChunkID p))) chunkID) then
    (p, (false, Some (errors_New "RIFF header doesn't match")))
  else if negb (String.eqb (string_of (slice4 (Format p))) format) then
    (p, (false, Some (errors_New "audio format doesn't match")))
  else if negb (String.eqb (string_of (slice4 (SubChunk1ID p))) subChunkID) then
    (p, (false, Some (errors_New "subchunk fmt doesn't match")))
  else if negb (SubChunk1Size p =? subChunk1Size) || negb (AudioFormat p =? audioFormat) then
    (p, (false, Some (errors_New "provided data is not PCM audio")))
  else if negb (String.eqb (string_of (slice4 (SubChunk2ID p))) subChunk2ID) then
    (p, (false, Some (errors_New "data header doesn't match")))
  else
    ({| meta := meta p; valid := true |}, (true, None)).

Section Package.
Context {R W : Type} `{!ReadSeeker R} `{!Writer W}.

(** The [for] loop of [PCMAudioMetadata.Merge], [left] and [right] being
    the keys of the two sources. *)
Fixpoint Merge_loop (fuel : nat) (left right : nat) (sampleSize : nat)
    (bufLeft bufRight : list byte) : M (R:=R) (W:=W) (option error) unit :=
  match fuel with
  | O => out_of_fuel
  | S fuel =>
      '(dL, errL) ← Read_at left (length bufLeft);
      let bufLeft := fill bufLeft dL in
      let nL := length dL in
      when (negb (is_nil errL) && negb (is_EOF errL))
        (return_ (Some (Errorf "error reading left: " errL)));;
      '(dR, errR) ← Read_at right (length bufRight);
      let bufRight := fill bufRight dR in
      let nR := length dR in
      when (negb (is_nil errR) && negb (is_EOF errR))
        (return_ (Some (Errorf "error reading right: " errR)));;
      (* left and right data are consumed *)
      if (is_EOF errL || (nL =? 0)%nat) && (is_EOF errR || (nR =? 0)%nat) then
        mret tt
      else
        (if (nL =? sampleSize)%nat then
           '(_, errW) ← Write_out bufLeft;
           when (negb (is_nil errW))
             (return_ (Some (Errorf "error writing left sample: " errW)))
         else
           let zeros := make sampleSize in
           '(_, errW) ← Write_out zeros;
           when (negb (is_nil errW))
             (return_ (Some (Errorf "error writing zero sample for left: " errW))));;
        (if (nR =? sampleSize)%nat then
           '(_, errW) ← Write_out bufRight;
           when (negb (is_nil errW))
             (return_ (Some (Errorf "error writing right sample: " errW)))
         else
           let zeros := make sampleSize in
           '(_, errW) ← Write_out zeros;
           when (negb (is_nil errW))
             (return_ (Some (Errorf "error writing zero sample for right: " errW))));;
        if is_EOF errL || is_EOF errR then mret tt
        else Merge_loop fuel left right sampleSize bufLeft bufRight
  end.

(** [p.Merge(other, output, left, right)]. *)
Definition Merge (fuel : nat) (p other : PCMAudioMetadata) (left right : nat)
  : M (R:=R) (W:=W) (option error) Empty_set :=
  if negb (valid p) || negb (valid other) then
    return_ (Some (errors_New "validate each audio file first"))
  else if negb (SampleRate p =? SampleRate other) then
    return_ (Some (errors_New "rate of both audio files must match"))
  else if negb (BitsPerSample p =? BitsPerSample other) then
    return_ (Some (errors_New "bits per sample of both audio files must match"))
  else
    let newMeta :=
      {| ChunkID := to_array4 (list_byte_of_string chunkID);
         ChunkSize := u32 (u32 (36 + SubChunk2Size p) + SubChunk2Size other);
         Format := to_array4 (list_byte_of_string format);
         SubChunk1ID := to_array4 (list_byte_of_string subChunkID);
         SubChunk1Size := subChunk1Size;
         AudioFormat := audioFormat;
         NumChannels := stereo;
         SampleRate := SampleRate p;
         ByteRate := u32 (u32 (SampleRate p * stereo) * (BitsPerSample p / 8));
         BlockAlign := u16 (stereo * (BitsPerSample p / 8));
         BitsPerSample := BitsPerSample p;
         SubChunk2ID := to_array4 (list_byte_of_string subChunk2ID);
         SubChunk2Size := u32 (SubChunk2Size p + SubChunk2Size other) |} in
    err ← binary_Write newMeta;
    when (negb (is_nil err))
      (return_ (Some (Errorf "could not write headers: " err)));;
    '(_, err) ← Seek_at left 44 SeekStart;
    when (negb (is_nil err))
      (return_ (Some (Errorf "could not seek left: " err)));;
    '(_, err) ← Seek_at right 44 SeekStart;
    when (negb (is_nil err))
      (return_ (Some (Errorf "could not seek right: " err)));;
    let sampleSize := Z.to_nat (BitsPerSample p / 8) in
    let bufLeft := make sampleSize in
    let bufRight := make sampleSize in
    Merge_loop fuel left right sampleSize bufLeft bufRight;;
    return_ None.

(** [NewPCMAudioMetadata]. *)
Definition NewPCMAudioMetadata (fuel : nat) (data : nat)
  : M (R:=R) (W:=W) (option PCMAudioMetadata * option error) Empty_set :=
  '(h, err) ← binary_Read fuel data;
  when (negb (is_nil err))
    (return_ (None, Some (Errorf "could not read and parse the recieved data: " err)));;
  return_ (Some {| meta := h; valid := false |}, None).

End Package.

End Metadata.

(** ** A file that may have been closed

    [os.File] answers every call after [Close] with an error; before that
    it reads and seeks as the in-memory source does.  The error stands for
    [os.ErrClosed], without the operation and path that [os.PathError]
    puts in front of it. *)
Record File : Type := mkFile { content : Reader; closed : bool }.

Definition ErrClosed : error := errors_New "file already closed".

Definition File_Read (f : File) (n : nat) : File * list byte * option error :=
  if closed f then (f, [], Some ErrClosed)
  else
    let '(r, d, err) := Reader_Read (content f) n in
    ({| content := r; closed := false |}, d, err).

Definition File_Seek (f : File) (offset : Z) (w : whence) : File * Z * option error :=
  if closed f then (f, 0, Some ErrClosed)
  else
    let '(r, pos, err) := Reader_Seek (content f) offset w in
    ({| content := r; closed := false |}, pos, err).

#[export] Instance File_ReadSeeker : ReadSeeker File :=
  {| Read := File_Read; Seek := File_Seek |}.

(** ** Vocabulary of the statements

    The theorems on [Merge] and [NewPCMAudio] run the code on in-memory
    sources and a buffer sink. *)

Abbreviation mem_world := (@world Reader Buffer).

(** The world after the cursor of source [k] moved to [j]. *)
Definition at_cursor (w : mem_world) (k : nat) (src : list byte) (j : nat) : mem_world :=
  {| sources := <[k := mkReader src j]> (sources w); sink := sink w |}.

(** The world after [bs] went to the sink. *)
Definition emit (w : mem_world) (bs : list byte) : mem_world :=
  {| sources := sources w; sink := sink w ++ bs |}.

(** The sources of the handles [p] and [other] hold [sL] and [sR], with
    their cursors at [jL] and [jR]. *)
Definition cursors (p other : PCMAudio) (sL sR : list byte)
    (w : mem_world) (jL jR : nat) : Prop :=
  sources w !! data p = Some (mkReader sL jL)
  /\ sources w !! data other = Some (mkReader sR jR).

(** The world after both cursors moved. *)
Definition moved (p other : PCMAudio) (sL sR : list byte)
    (w : mem_world) (jL jR : nat) : mem_world :=
  at_cursor (at_cursor w (data p) sL jL) (data other) sR jR.

(** Frame [j] of a payload whose frames are [k] bytes. *)
Definition frame (k j : nat) (bs : list byte) : list byte :=
  firstn k (skipn (j * k) bs).

(** The first [n] frames of two payloads, alternating, left one first. *)
Fixpoint interleave (k n : nat) (l r : list byte) : list byte :=
  match n with
  | O => []
  | S n => firstn k l ++ firstn k r ++ interleave k n (skipn k l) (skipn k r)
  end.

(** The size of a sample in bytes, as [Merge] computes it. *)
Definition sample_size (p : PCMAudio) : nat := Z.to_nat (BitsPerSample p / 8).

(** The payload of a source: what follows the 44 bytes of the header. *)
Definition payload (r : Reader) : list byte := skipn 44 (s r).

(** The preconditions that [Merge] checks. *)
Definition mergeable (p other : PCMAudio) : Prop :=
  valid p = true /\ valid other = true
  /\ SampleRate p = SampleRate other
  /\ BitsPerSample p = BitsPerSample other.

(** The preconditions that [checkRequiredParams] checks. *)
Definition concatenable (left right : PCMAudio) : Prop :=
  valid left = true /\ valid right = true
  /\ SampleRate left = SampleRate right
  /\ BitsPerSample left = BitsPerSample right
  /\ NumChannels left = NumChannels right.

(** The handle [p] with another channel count in its header. *)
Definition with_channels (p : PCMAudio) (c : Z) : PCMAudio :=
  {| headers_of :=
       {| ChunkID := ChunkID p; ChunkSize := ChunkSize p; Format := Format p;
          SubChunk1ID := SubChunk1ID p; SubChunk1Size := SubChunk1Size p;
          AudioFormat := AudioFormat p; NumChannels := c;
          SampleRate := SampleRate p; ByteRate := ByteRate p;
          BlockAlign := BlockAlign p; BitsPerSample := BitsPerSample p;
          SubChunk2ID := SubChunk2ID p; SubChunk2Size := SubChunk2Size p |};
     data := data p; valid := valid p |}.

(** *** The validation as the specification words it

    Five checks, made in this order; the first one that fails decides the
    error. *)
Inductive check : Type :=
  | ContainerTag
  | FormatTag
  | FmtChunkTag
  | PCMFormat
  | DataChunkTag.

Definition checks : list check :=
  [ContainerTag; FormatTag; FmtChunkTag; PCMFormat; DataChunkTag].

Definition passes (h : headers) (c : check) : bool :=
  match c with
  | ContainerTag => String.eqb (string_of (slice4 (ChunkID h))) "RIFF"
  | FormatTag => String.eqb (string_of (slice4 (Format h))) "WAVE"
  | FmtChunkTag => String.eqb (string_of (slice4 (SubChunk1ID h))) "fmt "
  | PCMFormat => (SubChunk1Size h =? 16) && (AudioFormat h =? 1)
  | DataChunkTag => String.eqb (string_of (slice4 (SubChunk2ID h))) "data"
  end.

(** The error of each check, the messages being those of [Validate]. *)
Definition check_error (c : check) : error :=
  match c with
  | ContainerTag => errors_New "RIFF header doesn't match"
  | FormatTag => errors_New "audio format doesn't match"
  | FmtChunkTag => errors_New "subchunk fmt doesn't match"
  | PCMFormat => errors_New "provided data is not PCM audio"
  | DataChunkTag => errors_New "data header doesn't match"
  end.

(** The first check that fails, if any. *)
Definition first_failure (h : headers) : option check :=
  List.find (fun c => negb (passes h c)) checks.

Definition validate_spec (p : PCMAudio) : PCMAudio * (bool * option error) :=
  match first_failure p with
  | Some c => (p, (false, Some (check_error c)))
  | None => ({| headers_of := headers_of p; data := data p; valid := true |}, (true, None))
  end.

(** The three errors of [Merge]'s precondition checks. *)
Definition Merge_precondition_errors : list error :=
  [errors_New "validate each audio file first";
   errors_New "rate of both audio files must match";
   errors_New "bits per sample of both audio files must match"].

(** *** Sample data: mono, 8 kHz, 16 bits *)

Definition sample_headers : headers :=
  {| ChunkID := to_array4 (list_byte_of_string chunkID);
     ChunkSize := 40;
     Format := to_array4 (list_byte_of_string format);
     SubChunk1ID := to_array4 (list_byte_of_string subChunkID);
     SubChunk1Size := 16;
     AudioFormat := 1;
     NumChannels := 1;
     SampleRate := 8000;
     ByteRate := 16000;
     BlockAlign := 2;
     BitsPerSample := 16;
     SubChunk2ID := to_array4 (list_byte_of_string subChunk2ID);
     SubChunk2Size := 4 |}.

(** A source that holds the sample header and then [pl]. *)
Definition sample_source (pl : list byte) : Reader :=
  {| s := encode_headers sample_headers ++ pl; i := 0 |}.

(** Two sources under the keys 0 and 1, and an empty sink. *)
Definition sample_world (plL plR : list byte) : mem_world :=
  {| sources := <[0%nat := sample_source plL]> (<[1%nat := sample_source plR]> ∅);
     sink := [] |}.

Definition sample_left : PCMAudio :=
  {| headers_of := sample_headers; data := 0; valid := true |}.
Definition sample_right : PCMAudio :=
  {| headers_of := sample_headers; data := 1; valid := true |}.

(** Two frames on each side. *)
Definition equal_world : mem_world :=
  sample_world [x01; x02; x03; x04] [x11; x12; x13; x14].

(** One frame on the left, three on the right. *)
Definition unequal_world : mem_world :=
  sample_world [x01; x02] [x11; x12; x13; x14; x15; x16].

(** The two sample sources as files, the left one closed. *)
Definition closed_left_world : @world File Buffer :=
  {| sources :=
       <[0%nat := mkFile (sample_source [x01; x02; x03; x04]) true]>
         (<[1%nat := mkFile (sample_source [x11; x12; x13; x14]) false]> ∅);
     sink := [] |}.

(** A sink with room for [n] bytes, beside the two sample sources. *)
Definition limited_world (n : nat) : @world Reader Limited :=
  {| sources := sources equal_world; sink := mkLimited [] n |}.

(** Payloads of two frames and one byte more on each side. *)
Definition ragged_world : mem_world :=
  sample_world [x01; x02; x03; x04; x05] [x11; x12; x13; x14; x15].

(** Three frames on the left, one on the right. *)
Definition left_longer_world : mem_world :=
  sample_world [x01; x02; x03; x04; x05; x06] [x11; x12].

(** * Properties *)

(** ** Bytes and little-endian integers *)

Lemma byte_val_range (b : byte) : 0 <= byte_val b < 256.
Proof.
  unfold byte_val. pose proof (Byte.to_N_bounded b). lia.
Qed.

Lemma byte_of_val (b : byte) : byte_of (byte_val b) = b.
Proof.
  unfold byte_of. rewrite Z.mod_small by apply byte_val_range.
  unfold byte_val. rewrite N2Z.id, Byte.of_to_N. reflexivity.
Qed.

Lemma byte_val_of (z : Z) : byte_val (byte_of z) = z mod 256.
Proof.
  unfold byte_of, byte_val.
  assert (Hr : 0 <= z mod 256 < 256) by (apply Z.mod_pos_bound; lia).
  destruct (Byte.of_N (Z.to_N (z mod 256))) as [b|] eqn:Hb.
  - apply Byte.to_of_N in Hb. simpl. rewrite Hb. lia.
  - apply Byte.of_N_None_iff in Hb. lia.
Qed.

(** A value below [2^n] and one shifted left by [n] share no bit. *)
Lemma lor_shiftl_add (a b n : Z) :
  0 <= n -> 0 <= a < 2 ^ n -> Z.lor a (Z.shiftl b n) = a + b * 2 ^ n.
Proof.
  intros Hn Ha.
  rewrite <- Z.shiftl_mul_pow2 by lia.
  rewrite <- Z.lxor_lor, <- Z.add_nocarry_lxor; trivial.
  all: apply Z.bits_inj'; intros k Hk;
    rewrite Z.land_spec, Z.bits_0;
    destruct (Z.lt_ge_cases k n) as [Hlt|Hge];
    [ rewrite Z.shiftl_spec_low by lia; apply andb_false_r
    | destruct (Z.eq_dec a 0) as [->|Hnz];
      [ rewrite Z.bits_0; reflexivity
      | rewrite (Z.bits_above_log2 a k);
        [ reflexivity | lia | apply Z.log2_lt_pow2; [lia|];
          apply Z.lt_le_trans with (2 ^ n); [lia | apply Z.pow_le_mono_r; lia] ] ] ].
Qed.

(** Arithmetic on quotients and remainders by the powers of two at hand. *)
Ltac pow2 :=
  change (2 ^ 8) with 256 in *; change (2 ^ 16) with 65536 in *;
  change (2 ^ 24) with 16777216 in *; change (2 ^ 32) with 4294967296 in *.
Ltac zdiv := pow2; Z.to_euclidean_division_equations; lia.

Lemma Uint16_PutUint16 (v : Z) :
  is_u16 v ->
  LittleEndian.Uint16 (byte_of v) (byte_of (Z.shiftr v 8)) = v.
Proof.
  unfold is_u16, LittleEndian.Uint16. intros Hv.
  rewrite !byte_val_of, !Z.shiftr_div_pow2 by lia.
  rewrite lor_shiftl_add by zdiv. zdiv.
Qed.

Lemma Uint32_PutUint32 (v : Z) :
  is_u32 v ->
  LittleEndian.Uint32 (byte_of v) (byte_of (Z.shiftr v 8))
    (byte_of (Z.shiftr v 16)) (byte_of (Z.shiftr v 24)) = v.
Proof.
  unfold is_u32, LittleEndian.Uint32. intros Hv.
  rewrite !byte_val_of, !Z.shiftr_div_pow2 by lia.
  rewrite (lor_shiftl_add _ _ 8) by zdiv.
  rewrite (lor_shiftl_add _ _ 16) by zdiv.
  rewrite (lor_shiftl_add _ _ 24) by zdiv.
  zdiv.
Qed.

Lemma encode_headers_length (h : headers) : length (encode_headers h) = 44%nat.
Proof.
  destruct h as [[[[? ?] ?] ?] ? [[[? ?] ?] ?] [[[? ?] ?] ?] ? ? ? ? ? ? ? [[[? ?] ?] ?] ?].
  reflexivity.
Qed.

Lemma decode_encode_headers (h : headers) :
  wf_headers h -> decode_headers (encode_headers h) = Some h.
Proof.
  intros [].
  destruct h as [[[[? ?] ?] ?] ? [[[? ?] ?] ?] [[[? ?] ?] ?] ? ? ? ? ? ? ? [[[? ?] ?] ?] ?].
  simpl in *. unfold decode_headers, encode_headers. simpl.
  rewrite !Uint32_PutUint32, !Uint16_PutUint16 by assumption.
  reflexivity.
Qed.

(** ** The primitives on in-memory sources and a buffer sink *)

Lemma bind_Next {E A B} (m : M E A) (f : A -> M E B) (w w' : mem_world) (a : A) :
  m w = Next a w' -> (m ≫= f) w = f a w'.
Proof. unfold mbind, M_bind. intros ->. reflexivity. Qed.

Lemma Read_at_more {E} (w : mem_world) (k n : nat) (src : list byte) (j : nat) :
  sources w !! k = Some (mkReader src j) ->
  (j < length src)%nat ->
  Read_at (E:=E) k n w =
    Next (firstn n (skipn j src), None)
         (at_cursor w k src (j + length (firstn n (skipn j src)))).
Proof.
  intros Hk Hj. unfold Read_at. rewrite Hk. simpl. unfold Reader_Read. simpl.
  destruct (Nat.leb_spec (length src) j); [lia | reflexivity].
Qed.

Lemma Read_at_end {E} (w : mem_world) (k n : nat) (src : list byte) (j : nat) :
  sources w !! k = Some (mkReader src j) ->
  (length src <= j)%nat ->
  Read_at (E:=E) k n w = Next ([], Some EOF) (at_cursor w k src j).
Proof.
  intros Hk Hj. unfold Read_at. rewrite Hk. simpl. unfold Reader_Read. simpl.
  destruct (Nat.leb_spec (length src) j); [reflexivity | lia].
Qed.

Lemma Seek_at_start {E} (w : mem_world) (k : nat) (r : Reader) (off : Z) :
  sources w !! k = Some r ->
  0 <= off ->
  Seek_at (E:=E) k off SeekStart w = Next (off, None) (at_cursor w k (s r) (Z.to_nat off)).
Proof.
  intros Hk Hoff. unfold Seek_at. rewrite Hk. simpl. unfold Reader_Seek.
  destruct (Z.ltb_spec off 0); [lia | reflexivity].
Qed.

Lemma at_cursor_lookup (w : mem_world) k src j :
  sources (at_cursor w k src j) !! k = Some (mkReader src j).
Proof. apply lookup_insert_eq. Qed.

Lemma at_cursor_lookup_ne (w : mem_world) k k' src j :
  k <> k' -> sources (at_cursor w k src j) !! k' = sources w !! k'.
Proof. intros. simpl. apply lookup_insert_ne. assumption. Qed.

Lemma at_cursor_twice (w : mem_world) k src j src' j' :
  at_cursor (at_cursor w k src j) k src' j' = at_cursor w k src' j'.
Proof. unfold at_cursor. simpl. rewrite insert_insert_eq. reflexivity. Qed.

(** ** Reading the header *)

Lemma ReadAtLeast_loop_done {R W} `{!ReadSeeker R} `{!Writer W} {E}
    (fuel k min : nat) (acc : list byte) (err : option error) :
  (length acc <? min)%nat && is_nil err = false ->
  ReadAtLeast_loop (R:=R) (W:=W) (E:=E) fuel k min acc err = mret (acc, err).
Proof. intros Hc. destruct fuel; simpl; rewrite Hc; reflexivity. Qed.

Lemma ReadAtLeast_loop_step {R W} `{!ReadSeeker R} `{!Writer W} {E}
    (fuel k min : nat) (acc : list byte) (err : option error) :
  (length acc <? min)%nat && is_nil err = true ->
  ReadAtLeast_loop (R:=R) (W:=W) (E:=E) (S fuel) k min acc err =
    ('(d, err) ← Read_at k (min - length acc);
     ReadAtLeast_loop fuel k min (acc ++ d) err).
Proof. intros Hc. simpl. rewrite Hc. reflexivity. Qed.

(** With [size] bytes or more left, one read fills the buffer. *)
Lemma ReadFull_enough {E} (w : mem_world) (fuel k size : nat) src j :
  sources w !! k = Some (mkReader src j) ->
  (0 < size <= length (skipn j src))%nat ->
  (1 <= fuel)%nat ->
  ReadFull (E:=E) fuel k size w =
    Next (firstn size (skipn j src), None) (at_cursor w k src (j + size)).
Proof.
  intros Hk Hsz Hf. destruct fuel as [|fuel]; [lia|].
  rewrite length_skipn in Hsz.
  assert (Hlen : length (firstn size (skipn j src)) = size)
    by (rewrite length_firstn, length_skipn; lia).
  unfold ReadFull.
  rewrite ReadAtLeast_loop_step
    by (simpl; destruct (Nat.ltb_spec 0 size); [reflexivity | lia]).
  erewrite bind_Next; cycle 1.
  { erewrite bind_Next by (apply Read_at_more; [eassumption | lia]).
    cbv beta iota. simpl app. simpl length. rewrite Nat.sub_0_r.
    rewrite ReadAtLeast_loop_done
      by (rewrite Hlen, Nat.ltb_irrefl; reflexivity).
    reflexivity. }
  cbv beta iota. rewrite Hlen, Nat.leb_refl. reflexivity.
Qed.

(** With fewer than [size] bytes left, the buffer cannot be filled: the
    error is [io.EOF] when nothing was left, [io.ErrUnexpectedEOF]
    otherwise, and the cursor is at the end. *)
Lemma ReadFull_short {E} (w : mem_world) (fuel k size : nat) src j :
  sources w !! k = Some (mkReader src j) ->
  (length (skipn j src) < size)%nat ->
  (2 <= fuel)%nat ->
  ReadFull (E:=E) fuel k size w =
    Next (skipn j src,
          Some (if (length (skipn j src) =? 0)%nat then EOF else ErrUnexpectedEOF))
         (at_cursor w k src (j + length (skipn j src))).
Proof.
  intros Hk Hsz Hf. destruct fuel as [|fuel]; [lia|].
  unfold ReadFull.
  rewrite ReadAtLeast_loop_step
    by (simpl; destruct (Nat.ltb_spec 0 size); [reflexivity | lia]).
  simpl length at 1. rewrite Nat.sub_0_r.
  destruct (Nat.le_gt_cases (length src) j) as [Hend|Hmore].
  - (* nothing left *)
    assert (Hnil : skipn j src = []) by (apply skipn_all2; lia).
    rewrite Hnil. simpl length. rewrite Nat.add_0_r.
    erewrite bind_Next; cycle 1.
    { erewrite bind_Next by (apply Read_at_end; eassumption).
      cbv beta iota. simpl app.
      rewrite ReadAtLeast_loop_done by apply andb_false_r.
      reflexivity. }
    cbv beta iota. simpl.
    destruct (Nat.leb_spec size 0); [lia | reflexivity].
  - (* a short read, then the end *)
    assert (Hall : firstn size (skipn j src) = skipn j src)
      by (apply firstn_all2; lia).
    destruct fuel as [|fuel]; [lia|].
    rewrite length_skipn in *.
    erewrite bind_Next; cycle 1.
    { erewrite bind_Next by (apply Read_at_more; eassumption).
      cbv beta iota. rewrite Hall, length_skipn. simpl app.
      rewrite ReadAtLeast_loop_step
        by (rewrite length_skipn; simpl;
            destruct (Nat.ltb_spec (length src - j) size); [reflexivity | lia]).
      erewrite bind_Next by (apply Read_at_end; [apply at_cursor_lookup | lia]).
      cbv beta iota. rewrite at_cursor_twice, app_nil_r.
      rewrite ReadAtLeast_loop_done by apply andb_false_r.
      reflexivity. }
    cbv beta iota. rewrite length_skipn.
    destruct (Nat.leb_spec size (length src - j)); [lia|].
    destruct (Nat.ltb_spec 0 (length src - j)); [|lia].
    destruct (Nat.eqb_spec (length src - j) 0); [lia | reflexivity].
Qed.

(** Any 44 bytes decode, and the four tags are the raw bytes at offsets
    0, 8, 12 and 36. *)
Lemma decode_headers_total (bs : list byte) :
  length bs = 44%nat ->
  exists h, decode_headers bs = Some h
    /\ slice4 (ChunkID h) = firstn 4 bs
    /\ slice4 (Format h) = firstn 4 (skipn 8 bs)
    /\ slice4 (SubChunk1ID h) = firstn 4 (skipn 12 bs)
    /\ slice4 (SubChunk2ID h) = firstn 4 (skipn 36 bs).
Proof.
  intros Hlen.
  do 44 (destruct bs as [|? bs]; [discriminate Hlen|]).
  destruct bs; [|discriminate Hlen].
  eexists. split; [reflexivity|]. repeat split; reflexivity.
Qed.

Lemma NewPCMAudio_enough (w : mem_world) (fuel k : nat) src j :
  sources w !! k = Some (mkReader src j) ->
  (44 <= length (skipn j src))%nat ->
  (1 <= fuel)%nat ->
  NewPCMAudio fuel k w =
    Return (Some {| headers_of :=
                      default zero_headers (decode_headers (firstn 44 (skipn j src)));
                    data := k; valid := false |}, None)
           (at_cursor w k src (j + 44)).
Proof.
  intros Hk Hlen Hf. unfold NewPCMAudio, binary_Read.
  erewrite bind_Next; cycle 1.
  { erewrite bind_Next
      by (apply ReadFull_enough; [eassumption | unfold headers_size; lia | lia]).
    reflexivity. }
  cbv beta iota. unfold headers_size.
  rewrite firstn_firstn, Nat.min_id. reflexivity.
Qed.

Lemma NewPCMAudio_short (w : mem_world) (fuel k : nat) src j :
  sources w !! k = Some (mkReader src j) ->
  (length (skipn j src) < 44)%nat ->
  (2 <= fuel)%nat ->
  NewPCMAudio fuel k w =
    Return (None,
            Some (Errorf "could not read and parse the recieved data: "
                    (Some (if (length (skipn j src) =? 0)%nat
                           then EOF else ErrUnexpectedEOF))))
           (at_cursor w k src (j + length (skipn j src))).
Proof.
  intros Hk Hlen Hf. unfold NewPCMAudio, binary_Read.
  erewrite bind_Next; cycle 1.
  { erewrite bind_Next
      by (apply ReadFull_short; [eassumption | unfold headers_size; lia | lia]).
    reflexivity. }
  reflexivity.
Qed.

(** ** The loop of [Merge] on two distinct in-memory sources *)

Lemma Merge_loop_unfold (fuel : nat) (p other : PCMAudio) (k : nat)
    (bufLeft bufRight : list byte) (w : mem_world) :
  Merge_loop (S fuel) p other k bufLeft bufRight w =
    ('(dL, errL) ← Read_at (data p) (length bufLeft);
     let bufLeft := fill bufLeft dL in
     let nL := length dL in
     when (negb (is_nil errL) && negb (is_EOF errL))
       (return_ (Some (Errorf "error reading left: " errL)));;
     '(dR, errR) ← Read_at (data other) (length bufRight);
     let bufRight := fill bufRight dR in
     let nR := length dR in
     when (negb (is_nil errR) && negb (is_EOF errR))
       (return_ (Some (Errorf "error reading right: " errR)));;
     if (is_EOF errL || (nL =? 0)%nat) && (is_EOF errR || (nR =? 0)%nat) then
       mret tt
     else
       (if (nL =? k)%nat then
          '(_, errW) ← Write_out bufLeft;
          when (negb (is_nil errW))
            (return_ (Some (Errorf "error writing left sample: " errW)))
        else
          let zeros := make k in
          '(_, errW) ← Write_out zeros;
          when (negb (is_nil errW))
            (return_ (Some (Errorf "error writing zero sample for left: " errW))));;
       (if (nR =? k)%nat then
          '(_, errW) ← Write_out bufRight;
          when (negb (is_nil errW))
            (return_ (Some (Errorf "error writing right sample: " errW)))
        else
          let zeros := make k in
          '(_, errW) ← Write_out zeros;
          when (negb (is_nil errW))
            (return_ (Some (Errorf "error writing zero sample for right: " errW))));;
       if is_EOF errL || is_EOF errR then mret tt
       else Merge_loop fuel p other k bufLeft bufRight) w.
Proof. reflexivity. Qed.

Lemma fill_full (buf d : list byte) : length d = length buf -> fill buf d = d.
Proof.
  intros Hlen. unfold fill. rewrite skipn_all2 by lia. apply app_nil_r.
Qed.

Tactic Notation "run" tactic3(tac) :=
  erewrite bind_Next by tac; cbv beta iota zeta.

(** The two tests made on the error of a read that was [nil] or the end. *)
Ltac read_ok :=
  change (negb (is_nil None) && negb (is_EOF None)) with false;
  change (negb (is_nil (Some EOF)) && negb (is_EOF (Some EOF))) with false;
  run reflexivity.

Lemma emit_emit (w : mem_world) (a b : list byte) :
  emit (emit w a) b = emit w (a ++ b).
Proof. unfold emit. simpl. rewrite app_assoc. reflexivity. Qed.

Section Loop.
Variables (p other : PCMAudio) (k : nat).
Variables (sL sR : list byte).
Hypothesis Hne : data p <> data other.
Hypothesis Hk : (0 < k)%nat.

Lemma moved_cursors (w : mem_world) (jL jR : nat) :
  cursors p other sL sR (moved p other sL sR w jL jR) jL jR.
Proof using Hne.
  split.
  - unfold moved. rewrite at_cursor_lookup_ne by congruence.
    apply at_cursor_lookup.
  - apply at_cursor_lookup.
Qed.

Lemma moved_moved (w : mem_world) (a b c d : nat) :
  moved p other sL sR (moved p other sL sR w a b) c d = moved p other sL sR w c d.
Proof using Hne.
  unfold moved, at_cursor. simpl. f_equal.
  apply map_eq. intros j.
  destruct (decide (j = data other)) as [->|Ho];
    [|destruct (decide (j = data p)) as [->|Hp]];
    repeat first [ rewrite lookup_insert_eq
                 | rewrite lookup_insert_ne by congruence ];
    reflexivity.
Qed.

(** A full frame on both sides: both are written and the loop goes on. *)
Lemma Merge_loop_both (fuel : nat) (bufLeft bufRight : list byte)
    (w : mem_world) (jL jR : nat) :
  cursors p other sL sR w jL jR ->
  length bufLeft = k -> length bufRight = k ->
  (jL + k <= length sL)%nat -> (jR + k <= length sR)%nat ->
  Merge_loop (S fuel) p other k bufLeft bufRight w =
    Merge_loop fuel p other k (firstn k (skipn jL sL)) (firstn k (skipn jR sR))
      (emit (moved p other sL sR w (jL + k) (jR + k))
            (firstn k (skipn jL sL) ++ firstn k (skipn jR sR))).
Proof using Hne Hk.
  intros [HL HR] HbL HbR HjL HjR.
  assert (HfL : length (firstn k (skipn jL sL)) = k)
    by (rewrite length_firstn, length_skipn; lia).
  assert (HfR : length (firstn k (skipn jR sR)) = k)
    by (rewrite length_firstn, length_skipn; lia).
  rewrite Merge_loop_unfold, HbL, HbR.
  run (apply Read_at_more; [eassumption | lia]).
  read_ok.
  run (apply Read_at_more;
       [rewrite at_cursor_lookup_ne by assumption; eassumption | lia]).
  read_ok.
  rewrite HfL, HfR, (Nat.eqb_refl k).
  destruct (Nat.eqb_spec k 0) as [|_]; [lia|].
  cbn [is_EOF is_nil orb andb negb].
  run reflexivity. run reflexivity.
  rewrite !fill_full by congruence.
  rewrite <- emit_emit. reflexivity.
Qed.

(** Both sides at their end: nothing is written and the loop is left. *)
Lemma Merge_loop_end (fuel : nat) (bufLeft bufRight : list byte)
    (w : mem_world) (jL jR : nat) :
  cursors p other sL sR w jL jR ->
  (length sL <= jL)%nat -> (length sR <= jR)%nat ->
  Merge_loop (S fuel) p other k bufLeft bufRight w = Next tt (moved p other sL sR w jL jR).
Proof using Hne.
  clear Hk. intros [HL HR] HjL HjR.
  rewrite Merge_loop_unfold.
  run (apply Read_at_end; [eassumption | lia]).
  read_ok.
  run (apply Read_at_end;
       [rewrite at_cursor_lookup_ne by assumption; eassumption | lia]).
  read_ok.
  reflexivity.
Qed.

(** The left side at its end, a full frame on the right: a zero frame and
    the right frame are written, and the loop is left. *)
Lemma Merge_loop_left_end (fuel : nat) (bufLeft bufRight : list byte)
    (w : mem_world) (jL jR : nat) :
  cursors p other sL sR w jL jR ->
  length bufRight = k ->
  (length sL <= jL)%nat -> (jR + k <= length sR)%nat ->
  Merge_loop (S fuel) p other k bufLeft bufRight w =
    Next tt (emit (moved p other sL sR w jL (jR + k)) (make k ++ firstn k (skipn jR sR))).
Proof using Hne Hk.
  intros [HL HR] HbR HjL HjR.
  assert (HfR : length (firstn k (skipn jR sR)) = k)
    by (rewrite length_firstn, length_skipn; lia).
  rewrite Merge_loop_unfold, HbR.
  run (apply Read_at_end; [eassumption | lia]).
  read_ok.
  run (apply Read_at_more;
       [rewrite at_cursor_lookup_ne by assumption; eassumption | lia]).
  read_ok.
  change (length (@nil byte)) with 0%nat.
  rewrite HfR, (Nat.eqb_refl k).
  destruct (Nat.eqb_spec k 0) as [|_]; [lia|].
  destruct (Nat.eqb_spec 0 k) as [|_]; [lia|].
  cbn [is_EOF is_nil orb andb negb].
  run reflexivity. run reflexivity.
  rewrite fill_full by congruence.
  rewrite <- emit_emit. reflexivity.
Qed.

(** A full frame on the left, the right side at its end. *)
Lemma Merge_loop_right_end (fuel : nat) (bufLeft bufRight : list byte)
    (w : mem_world) (jL jR : nat) :
  cursors p other sL sR w jL jR ->
  length bufLeft = k ->
  (jL + k <= length sL)%nat -> (length sR <= jR)%nat ->
  Merge_loop (S fuel) p other k bufLeft bufRight w =
    Next tt (emit (moved p other sL sR w (jL + k) jR) (firstn k (skipn jL sL) ++ make k)).
Proof using Hne Hk.
  intros [HL HR] HbL HjL HjR.
  assert (HfL : length (firstn k (skipn jL sL)) = k)
    by (rewrite length_firstn, length_skipn; lia).
  rewrite Merge_loop_unfold, HbL.
  run (apply Read_at_more; [eassumption | lia]).
  read_ok.
  run (apply Read_at_end;
       [rewrite at_cursor_lookup_ne by assumption; eassumption | lia]).
  read_ok.
  change (length (@nil byte)) with 0%nat.
  rewrite HfL, (Nat.eqb_refl k).
  destruct (Nat.eqb_spec k 0) as [|_]; [lia|].
  destruct (Nat.eqb_spec 0 k) as [|_]; [lia|].
  cbn [is_EOF is_nil orb andb negb].
  run reflexivity. run reflexivity.
  rewrite fill_full by congruence.
  rewrite <- emit_emit. reflexivity.
Qed.

Lemma moved_id (w : mem_world) (jL jR : nat) :
  cursors p other sL sR w jL jR -> moved p other sL sR w jL jR = w.
Proof using Type.
  intros [HL HR]. destruct w as [src snk]. unfold moved, at_cursor. simpl in *.
  f_equal. rewrite (insert_id src) by assumption. apply insert_id. assumption.
Qed.

Lemma emit_nil (w : mem_world) : emit w [] = w.
Proof using Type. destruct w. unfold emit. simpl. rewrite app_nil_r. reflexivity. Qed.

(** [n] full frames on both sides: [n] iterations write them alternately
    and leave the loop running. *)
Lemma Merge_loop_frames (n fuel : nat) :
  forall (bufLeft bufRight : list byte) (w : mem_world) (jL jR : nat),
  cursors p other sL sR w jL jR ->
  length bufLeft = k -> length bufRight = k ->
  (n * k <= length sL - jL)%nat -> (n * k <= length sR - jR)%nat ->
  exists bL bR,
    length bL = k /\ length bR = k /\
    Merge_loop (n + fuel) p other k bufLeft bufRight w =
      Merge_loop fuel p other k bL bR
        (emit (moved p other sL sR w (jL + n * k) (jR + n * k))
              (interleave k n (skipn jL sL) (skipn jR sR))).
Proof using Hne Hk.
  induction n as [|n IH]; intros bufLeft bufRight w jL jR Hc HbL HbR HjL HjR.
  - exists bufLeft, bufRight. repeat split; trivial.
    simpl. rewrite !Nat.add_0_r, emit_nil, moved_id by assumption. reflexivity.
  - simpl Nat.add.
    rewrite (Merge_loop_both _ _ _ _ jL jR) by (trivial; lia).
    set (fL := firstn k (skipn jL sL)). set (fR := firstn k (skipn jR sR)).
    destruct (IH fL fR (emit (moved p other sL sR w (jL + k) (jR + k)) (fL ++ fR))
                (jL + k)%nat (jR + k)%nat) as (bL & bR & HL & HR & Heq).
    + apply (moved_cursors w).
    + subst fL. rewrite length_firstn, length_skipn. lia.
    + subst fR. rewrite length_firstn, length_skipn. lia.
    + lia.
    + lia.
    + exists bL, bR. repeat split; trivial. rewrite Heq. f_equal.
      change (moved p other sL sR (emit (moved p other sL sR w (jL + k) (jR + k)) (fL ++ fR))
                (jL + k + n * k) (jR + k + n * k))
        with (emit (moved p other sL sR (moved p other sL sR w (jL + k) (jR + k))
                      (jL + k + n * k) (jR + k + n * k)) (fL ++ fR)).
      rewrite moved_moved, emit_emit. subst fL fR. simpl interleave.
      rewrite !skipn_skipn, <- !app_assoc.
      replace (jL + k + n * k)%nat with (jL + S n * k)%nat by lia.
      replace (jR + k + n * k)%nat with (jR + S n * k)%nat by lia.
      rewrite (Nat.add_comm k jL), (Nat.add_comm k jR). reflexivity.
Qed.

(** Both payloads hold exactly [n] frames from the cursors on: the loop
    ends after [n + 1] iterations, having written the [2n] frames. *)
Lemma Merge_loop_equal (n fuel : nat) (bufLeft bufRight : list byte)
    (w : mem_world) (jL jR : nat) :
  cursors p other sL sR w jL jR ->
  length bufLeft = k -> length bufRight = k ->
  (length sL - jL = n * k)%nat -> (length sR - jR = n * k)%nat ->
  (n < fuel)%nat ->
  Merge_loop fuel p other k bufLeft bufRight w =
    Next tt (emit (moved p other sL sR w (jL + n * k) (jR + n * k))
                  (interleave k n (skipn jL sL) (skipn jR sR))).
Proof using Hne Hk.
  intros Hc HbL HbR HsL HsR Hfuel.
  replace fuel with (n + S (fuel - S n))%nat by lia.
  destruct (Merge_loop_frames n (S (fuel - S n)) bufLeft bufRight w jL jR)
    as (bL & bR & HL & HR & ->); trivial; try lia.
  rewrite (Merge_loop_end _ _ _ _ (jL + n * k)%nat (jR + n * k)%nat).
  - change (moved p other sL sR (emit ?w0 ?x) ?a ?b)
      with (emit (moved p other sL sR w0 a b) x).
    rewrite moved_moved. reflexivity.
  - apply (moved_cursors w).
  - lia.
  - lia.
Qed.

(** The left payload holds exactly [n] frames and the right one at least
    one more: the loop ends after [n + 1] iterations, the last of which
    writes a zero frame and frame [n] of the right payload. *)
Lemma Merge_loop_left_short (n fuel : nat) (bufLeft bufRight : list byte)
    (w : mem_world) (jL jR : nat) :
  cursors p other sL sR w jL jR ->
  length bufLeft = k -> length bufRight = k ->
  (length sL - jL = n * k)%nat -> (S n * k <= length sR - jR)%nat ->
  (n < fuel)%nat ->
  Merge_loop fuel p other k bufLeft bufRight w =
    Next tt (emit (moved p other sL sR w (jL + n * k) (jR + S n * k))
                  (interleave k n (skipn jL sL) (skipn jR sR)
                   ++ make k ++ firstn k (skipn (jR + n * k) sR))).
Proof using Hne Hk.
  intros Hc HbL HbR HsL HsR Hfuel.
  replace fuel with (n + S (fuel - S n))%nat by lia.
  destruct (Merge_loop_frames n (S (fuel - S n)) bufLeft bufRight w jL jR)
    as (bL & bR & HL & HR & ->); trivial; try lia.
  rewrite (Merge_loop_left_end _ _ _ _ (jL + n * k)%nat (jR + n * k)%nat).
  - change (moved p other sL sR (emit ?w0 ?x) ?a ?b)
      with (emit (moved p other sL sR w0 a b) x).
    rewrite moved_moved, emit_emit.
    replace (jR + n * k + k)%nat with (jR + S n * k)%nat by lia.
    reflexivity.
  - apply (moved_cursors w).
  - assumption.
  - lia.
  - lia.
Qed.

End Loop.

(** ** Termination of the loop on any in-memory sources

    No assumption on the payload lengths, and the two handles may share
    their source. *)

Lemma lookup_after_move (w : mem_world) (k k' : nat) src j (r : Reader) :
  sources w !! k' = Some r ->
  exists r', sources (at_cursor w k src j) !! k' = Some r'
    /\ (k = k' -> r' = mkReader src j) /\ (k <> k' -> r' = r).
Proof.
  intros Hk'. destruct (decide (k = k')) as [<-|Hne].
  - exists (mkReader src j). rewrite at_cursor_lookup. repeat split; congruence.
  - exists r. rewrite at_cursor_lookup_ne by assumption. repeat split; congruence.
Qed.

(** An iteration that is the last one: decide the tests on the lengths,
    run the writes, and read off what went to the sink. *)
Ltac last_iteration :=
  repeat (match goal with
          | |- context [(?a =? ?b)%nat] => destruct (Nat.eqb_spec a b)
          end; cbn [andb orb]);
  repeat (run reflexivity);
  eexists _, _; (split; [reflexivity|]); simpl;
  first [ rewrite <- ?app_assoc; reflexivity | symmetry; apply app_nil_r ].

Lemma Merge_loop_total (p other : PCMAudio) (k fuel : nat) :
  forall (bufLeft bufRight : list byte) (w : mem_world) (rL rR : Reader),
  sources w !! data p = Some rL ->
  sources w !! data other = Some rR ->
  length bufLeft = k -> length bufRight = k ->
  (length (s rL) - i rL < fuel)%nat ->
  exists w' out,
    Merge_loop fuel p other k bufLeft bufRight w = Next tt w'
    /\ sink w' = sink w ++ out.
Proof.
  induction fuel as [|fuel IH];
    intros bufLeft bufRight w [sL jL] rR HL HR HbL HbR Hfuel; [lia|].
  simpl in Hfuel.
  rewrite Merge_loop_unfold, HbL, HbR.
  destruct (Nat.le_gt_cases (length sL) jL) as [HLend|HLmore].
  - run (apply Read_at_end; [eassumption | lia]). read_ok.
    destruct (lookup_after_move w (data p) (data other) sL jL rR HR)
      as ([sR jR] & HR' & _).
    change (length (@nil byte)) with 0%nat.
    destruct (Nat.le_gt_cases (length sR) jR) as [HRend|HRmore].
    + run (apply Read_at_end; [eassumption | lia]). read_ok.
      cbn [is_EOF orb andb]. last_iteration.
    + run (apply Read_at_more; [eassumption | lia]). read_ok.
      cbn [is_EOF orb andb]. last_iteration.
  - run (apply Read_at_more; [eassumption | lia]). read_ok.
    set (dL := firstn k (skipn jL sL)).
    destruct (lookup_after_move w (data p) (data other) sL (jL + length dL) rR HR)
      as ([sR jR] & HR' & Halias & _).
    destruct (Nat.le_gt_cases (length sR) jR) as [HRend|HRmore].
    + run (apply Read_at_end; [eassumption | lia]). read_ok.
      change (length (@nil byte)) with 0%nat.
      cbn [is_EOF orb andb]. last_iteration.
    + run (apply Read_at_more; [eassumption | lia]). read_ok.
      set (dR := firstn k (skipn jR sR)).
      cbn [is_EOF orb andb].
      assert (HdL : length dL = Nat.min k (length sL - jL))
        by (subst dL; rewrite length_firstn, length_skipn; reflexivity).
      assert (HdR : length dR = Nat.min k (length sR - jR))
        by (subst dR; rewrite length_firstn, length_skipn; reflexivity).
      destruct (Nat.eqb_spec (length dL) 0) as [HzL|HnzL];
        [destruct (Nat.eqb_spec (length dR) 0) as [HzR|HnzR]|].
      * cbn [andb]. eexists _, []. split; [reflexivity|].
        rewrite app_nil_r. reflexivity.
      * lia.
      * cbn [andb].
        match goal with
        | |- exists w' out, (_ ≫= _) ?w0 = _ /\ _ => set (w1 := w0)
        end.
        assert (Hstep : exists (w2 : mem_world) out2,
                   sink w2 = sink w ++ out2 /\
                   sources w2 = sources w1 /\
                   forall (f : unit -> M (option error) unit),
                     ((if (length dL =? k)%nat then
                         '(_, errW) ← Write_out (fill bufLeft dL);
                         when (negb (is_nil errW))
                           (return_ (Some (Errorf "error writing left sample: " errW)))
                       else
                         '(_, errW) ← Write_out (make k);
                         when (negb (is_nil errW))
                           (return_ (Some (Errorf "error writing zero sample for left: " errW))));;
                      (if (length dR =? k)%nat then
                         '(_, errW) ← Write_out (fill bufRight dR);
                         when (negb (is_nil errW))
                           (return_ (Some (Errorf "error writing right sample: " errW)))
                       else
                         '(_, errW) ← Write_out (make k);
                         when (negb (is_nil errW))
                           (return_ (Some (Errorf "error writing zero sample for right: " errW))));;
                      f tt) w1 = f tt w2).
        { destruct (Nat.eqb_spec (length dL) k), (Nat.eqb_spec (length dR) k);
            eexists _, _;
            (split; [|split; [|intros f; run reflexivity; run reflexivity;
                               reflexivity]]);
            simpl; rewrite <- ?app_assoc; reflexivity. }
        destruct Hstep as (w2 & out2 & Hsink2 & Hsrc2 & Hrun).
        rewrite (Hrun (fun _ => Merge_loop fuel p other k (fill bufLeft dL) (fill bufRight dR))).
        destruct (lookup_after_move (at_cursor w (data p) sL (jL + length dL))
                    (data other) (data p) sR (jR + length dR)
                    (mkReader sL (jL + length dL)))
          as (rL' & HL' & Hal' & Hnal'); [apply at_cursor_lookup|].
        assert (HrL' : (length (s rL') - i rL' < fuel)%nat).
        { destruct (decide (data other = data p)) as [e|ne].
          - rewrite (Hal' e). simpl.
            assert (mkReader sR jR = mkReader sL (jL + length dL))
              by (apply Halias; congruence).
            assert (sR = sL) by congruence. assert (jR = (jL + length dL)%nat) by congruence.
            subst. lia.
          - rewrite (Hnal' ne). simpl. lia. }
        destruct (lookup_after_move (at_cursor w (data p) sL (jL + length dL))
                    (data other) (data other) sR (jR + length dR)
                    (mkReader sR jR) HR')
          as (rR' & HRR' & _).
        destruct (IH (fill bufLeft dL) (fill bufRight dR) w2 rL' rR')
          as (w' & out & Heq & Hsink).
        -- exact (eq_trans (f_equal (fun m => m !! data p) Hsrc2) HL').
        -- exact (eq_trans (f_equal (fun m => m !! data other) Hsrc2) HRR').
        -- unfold fill. rewrite length_app, length_skipn. lia.
        -- unfold fill. rewrite length_app, length_skipn. lia.
        -- exact HrL'.
        -- exists w', (out2 ++ out). split; [exact Heq|].
           rewrite Hsink, Hsink2, app_assoc. reflexivity.
Qed.

(** ** Frames of an interleaved payload *)

Section Frames.
Variable k : nat.

Lemma interleave_length (n : nat) : forall (l r : list byte),
  (n * k <= length l)%nat -> (n * k <= length r)%nat ->
  length (interleave k n l r) = (2 * n * k)%nat.
Proof using Type.
  induction n as [|n IH]; intros l r Hl Hr; [reflexivity|].
  simpl interleave. rewrite !length_app, !length_firstn.
  rewrite IH by (rewrite length_skipn; lia). lia.
Qed.

Lemma frame_0_app (a b : list byte) : length a = k -> frame k 0 (a ++ b) = a.
Proof using Type.
  intros Ha. unfold frame. simpl. apply take_app_length'. congruence.
Qed.

Lemma frame_S_app (j : nat) (a b : list byte) :
  length a = k -> frame k (S j) (a ++ b) = frame k j b.
Proof using Type.
  intros Ha. unfold frame. simpl. rewrite drop_app_add' by congruence. reflexivity.
Qed.

Lemma frame_skip (j : nat) (l : list byte) :
  frame k j (skipn k l) = frame k (S j) l.
Proof using Type.
  unfold frame. simpl. rewrite drop_drop. reflexivity.
Qed.

Lemma frame_interleave (n : nat) : forall (j : nat) (l r : list byte),
  (j < n)%nat -> (n * k <= length l)%nat -> (n * k <= length r)%nat ->
  frame k (2 * j) (interleave k n l r) = frame k j l
  /\ frame k (2 * j + 1) (interleave k n l r) = frame k j r.
Proof using Type.
  induction n as [|n IH]; intros j l r Hj Hl Hr; [lia|].
  assert (Ha : length (firstn k l) = k) by (rewrite length_firstn; lia).
  assert (Hb : length (firstn k r) = k) by (rewrite length_firstn; lia).
  simpl interleave. destruct j as [|j].
  - split.
    + change (2 * 0)%nat with 0%nat. rewrite frame_0_app by assumption. reflexivity.
    + change (2 * 0 + 1)%nat with 1%nat. rewrite frame_S_app, frame_0_app by assumption.
      reflexivity.
  - replace (2 * S j)%nat with (S (S (2 * j))) by lia.
    replace (S (S (2 * j)) + 1)%nat with (S (S (2 * j + 1))) by lia.
    rewrite !frame_S_app by assumption.
    destruct (IH j (skipn k l) (skipn k r)) as [IHl IHr];
      [lia | rewrite length_skipn; lia | rewrite length_skipn; lia |].
    rewrite IHl, IHr, !frame_skip. split; reflexivity.
Qed.

(** With frames of no byte there is nothing to interleave. *)
Lemma interleave_nil (n : nat) (l r : list byte) :
  k = 0%nat -> interleave k n l r = [].
Proof using Type.
  intros ->. revert l r. induction n as [|n IH]; intros l r; [reflexivity|].
  simpl. apply IH.
Qed.

End Frames.

(** ** The loop with frames of no byte *)

Lemma Merge_loop_zero (p other : PCMAudio) (fuel : nat) (w : mem_world)
    (rL rR : Reader) :
  sources w !! data p = Some rL ->
  sources w !! data other = Some rR ->
  exists w', Merge_loop (S fuel) p other 0 [] [] w = Next tt w' /\ sink w' = sink w.
Proof.
  intros HL HR. destruct rL as [sL jL].
  rewrite Merge_loop_unfold. change (length (@nil byte)) with 0%nat.
  destruct (Nat.le_gt_cases (length sL) jL) as [HLend|HLmore].
  - run (apply Read_at_end; [eassumption | lia]). read_ok.
    destruct (lookup_after_move w (data p) (data other) sL jL rR HR)
      as ([sR jR] & HR' & _).
    destruct (Nat.le_gt_cases (length sR) jR) as [HRend|HRmore].
    + run (apply Read_at_end; [eassumption | lia]). read_ok.
      eexists. split; reflexivity.
    + run (apply Read_at_more; [eassumption | lia]). read_ok.
      eexists. split; reflexivity.
  - run (apply Read_at_more; [eassumption | lia]). read_ok.
    destruct (lookup_after_move w (data p) (data other) sL
                (jL + length (firstn 0 (skipn jL sL))) rR HR)
      as ([sR jR] & HR' & _).
    destruct (Nat.le_gt_cases (length sR) jR) as [HRend|HRmore].
    + run (apply Read_at_end; [eassumption | lia]). read_ok.
      eexists. split; reflexivity.
    + run (apply Read_at_more; [eassumption | lia]). read_ok.
      eexists. split; reflexivity.
Qed.

(** ** [Merge] up to its loop *)

Lemma Merge_start (fuel : nat) (p other : PCMAudio) (w : mem_world) (rL rR : Reader) :
  mergeable p other ->
  sources w !! data p = Some rL ->
  sources w !! data other = Some rR ->
  Merge fuel p other w =
    (Merge_loop fuel p other (sample_size p)
       (make (sample_size p)) (make (sample_size p));;
     return_ None)
      (moved p other (s rL) (s rR)
         (emit w (encode_headers (Merge_headers p other))) 44 44).
Proof.
  intros (Hv1 & Hv2 & Hrate & Hbits) HL HR.
  apply Z.eqb_eq in Hrate, Hbits.
  unfold Merge. rewrite Hv1, Hv2, Hrate, Hbits.
  cbn [negb orb].
  run reflexivity. cbn [is_nil negb]. run reflexivity.
  run (apply Seek_at_start; [exact HL | lia]).
  cbn [is_nil negb]. run reflexivity.
  destruct (lookup_after_move (emit w (encode_headers (Merge_headers p other)))
              (data p) (data other) (s rL) (Z.to_nat 44) rR HR)
    as (r' & Hr' & Hal & Hnal).
  assert (Hs : s r' = s rR).
  { destruct (decide (data p = data other)) as [e|ne].
    - rewrite (Hal e). simpl. rewrite e in HL. congruence.
    - rewrite (Hnal ne). reflexivity. }
  run (apply Seek_at_start; [exact Hr' | lia]).
  cbn [is_nil negb]. run reflexivity.
  rewrite Hs. reflexivity.
Qed.

(** [Merge] ends on any two in-memory sources, and what it adds to the
    sink starts with the encoded header. *)
Lemma Merge_total (fuel : nat) (p other : PCMAudio) (w : mem_world) (rL rR : Reader) :
  mergeable p other ->
  sources w !! data p = Some rL ->
  sources w !! data other = Some rR ->
  (length (payload rL) < fuel)%nat ->
  exists w' body,
    Merge fuel p other w = Return None w'
    /\ sink w' = sink w ++ encode_headers (Merge_headers p other) ++ body.
Proof.
  intros Hm HL HR Hfuel. unfold payload in Hfuel. rewrite length_skipn in Hfuel.
  rewrite (Merge_start fuel p other w rL rR) by assumption.
  set (w0 := emit w (encode_headers (Merge_headers p other))).
  destruct (lookup_after_move w0 (data p) (data p) (s rL) 44 rL HL)
    as (r1 & Hr1 & Hal1 & _).
  destruct (lookup_after_move w0 (data p) (data other) (s rL) 44 rR HR)
    as (r2 & Hr2 & _).
  destruct (lookup_after_move (at_cursor w0 (data p) (s rL) 44)
              (data other) (data p) (s rR) 44 r1 Hr1)
    as (r3 & Hr3 & Hal3 & Hnal3).
  destruct (lookup_after_move (at_cursor w0 (data p) (s rL) 44)
              (data other) (data other) (s rR) 44 r2 Hr2)
    as (r4 & Hr4 & _).
  assert (Hmeasure : (length (s r3) - i r3 < fuel)%nat).
  { destruct (decide (data other = data p)) as [e|ne].
    - rewrite (Hal3 e). simpl. rewrite e in HR. assert (rL = rR) by congruence.
      subst. lia.
    - rewrite (Hnal3 ne), (Hal1 eq_refl). simpl. lia. }
  destruct (Merge_loop_total p other (sample_size p) fuel
              (make (sample_size p)) (make (sample_size p))
              (moved p other (s rL) (s rR) w0 44 44) r3 r4)
    as (w' & out & Heq & Hsink).
  - exact Hr3.
  - exact Hr4.
  - apply repeat_length.
  - apply repeat_length.
  - exact Hmeasure.
  - exists w', out. split.
    + erewrite bind_Next by exact Heq. reflexivity.
    + rewrite Hsink. simpl. rewrite <- app_assoc. reflexivity.
Qed.

(** Two distinct sources whose payloads hold exactly [n] frames. *)
Lemma Merge_equal (n fuel : nat) (p other : PCMAudio) (w : mem_world) (rL rR : Reader) :
  mergeable p other ->
  data p <> data other ->
  sources w !! data p = Some rL ->
  sources w !! data other = Some rR ->
  length (payload rL) = (n * sample_size p)%nat ->
  length (payload rR) = (n * sample_size p)%nat ->
  (n < fuel)%nat ->
  exists w',
    Merge fuel p other w = Return None w'
    /\ sink w' = sink w ++ encode_headers (Merge_headers p other)
                 ++ interleave (sample_size p) n (payload rL) (payload rR).
Proof.
  intros Hm Hne HL HR HlenL HlenR Hfuel.
  unfold payload in *. rewrite length_skipn in HlenL, HlenR.
  rewrite (Merge_start fuel p other w rL rR) by assumption.
  set (w0 := emit w (encode_headers (Merge_headers p other))).
  assert (Hc : cursors p other (s rL) (s rR) (moved p other (s rL) (s rR) w0 44 44) 44 44)
    by (apply moved_cursors; assumption).
  destruct (Nat.eq_dec (sample_size p) 0%nat) as [Hz|Hnz].
  - destruct fuel as [|fuel]; [lia|]. rewrite Hz. destruct Hc as [HcL HcR].
    destruct (Merge_loop_zero p other fuel _ _ _ HcL HcR) as (w' & Heq & Hsink).
    exists w'. split.
    + erewrite bind_Next by exact Heq. reflexivity.
    + rewrite Hsink, interleave_nil, app_nil_r by reflexivity. reflexivity.
  - eexists. split.
    + erewrite bind_Next; [reflexivity|].
      apply (Merge_loop_equal p other (sample_size p) (s rL) (s rR) Hne
               ltac:(lia) n fuel _ _ _ 44%nat 44%nat Hc);
        trivial; apply repeat_length.
    + simpl. rewrite <- app_assoc. reflexivity.
Qed.

(** The left payload holds exactly [n] frames, the right one more than
    that: the output stops after frame [n] of the right payload. *)
Lemma Merge_left_short (n fuel : nat) (p other : PCMAudio) (w : mem_world) (rL rR : Reader) :
  mergeable p other ->
  data p <> data other ->
  (0 < sample_size p)%nat ->
  sources w !! data p = Some rL ->
  sources w !! data other = Some rR ->
  length (payload rL) = (n * sample_size p)%nat ->
  (S n * sample_size p <= length (payload rR))%nat ->
  (n < fuel)%nat ->
  exists w',
    Merge fuel p other w = Return None w'
    /\ sink w' = sink w ++ encode_headers (Merge_headers p other)
                 ++ interleave (sample_size p) n (payload rL) (payload rR)
                 ++ make (sample_size p)
                 ++ frame (sample_size p) n (payload rR).
Proof.
  intros Hm Hne Hk HL HR HlenL HlenR Hfuel.
  unfold payload in *. rewrite length_skipn in HlenL, HlenR.
  rewrite (Merge_start fuel p other w rL rR) by assumption.
  set (w0 := emit w (encode_headers (Merge_headers p other))).
  eexists. split.
  - erewrite bind_Next; [reflexivity|].
    apply (Merge_loop_left_short p other (sample_size p) (s rL) (s rR) Hne Hk
             n fuel _ _ _ 44%nat 44%nat (moved_cursors p other _ _ Hne w0 44%nat 44%nat));
      trivial; apply repeat_length.
  - simpl. unfold frame. rewrite drop_drop, <- !app_assoc. reflexivity.
Qed.

(** ** Concatenation on in-memory sources *)






(** Frames of a payload made of two payloads one after the other. *)
Lemma frame_app_l (k j n : nat) (a b : list byte) :
  length a = (n * k)%nat -> (j < n)%nat -> frame k j (a ++ b) = frame k j a.
Proof.
  intros Ha Hj. unfold frame.
  rewrite drop_app_le by nia.
  apply take_app_le. rewrite length_skipn. nia.
Qed.

Lemma frame_app_r (k j n : nat) (a b : list byte) :
  length a = (n * k)%nat -> frame k (n + j) (a ++ b) = frame k j b.
Proof.
  intros Ha. unfold frame.
  replace ((n + j) * k)%nat with (length a + j * k)%nat by lia.
  rewrite drop_app_add. reflexivity.
Qed.

(** ** The header that [Merge] builds *)

Lemma Merge_headers_wf (p other : PCMAudio) :
  wf_headers p -> wf_headers (Merge_headers p other).
Proof.
  intros []. constructor; simpl; unfold is_u32, is_u16, u32, u16 in *;
    try assumption; try (apply Z.mod_pos_bound; lia);
    unfold subChunk1Size, audioFormat, stereo; lia.
Qed.

Lemma Merge_headers_fields (p other : PCMAudio) :
  is_u16 (BitsPerSample p) ->
  let h := Merge_headers p other in
  NumChannels h = 2
  /\ SubChunk2Size h = u32 (SubChunk2Size p + SubChunk2Size other)
  /\ BlockAlign h = 2 * (BitsPerSample p / 8)
  /\ ByteRate h = u32 (SampleRate p * BlockAlign h)
  /\ ChunkSize h = u32 (36 + SubChunk2Size h)
  /\ string_of (slice4 (ChunkID h)) = "RIFF"
  /\ string_of (slice4 (Format h)) = "WAVE"
  /\ string_of (slice4 (SubChunk1ID h)) = "fmt "
  /\ string_of (slice4 (SubChunk2ID h)) = "data".
Proof.
  intros Hbits. simpl. repeat split.
  - unfold u16, stereo. unfold is_u16 in Hbits. apply Z.mod_small. zdiv.
  - unfold u32. rewrite Zplus_mod_idemp_l, Zplus_mod_idemp_r.
    f_equal. lia.
Qed.

(** ** [Merge] never looks at the channel counts *)

Lemma Merge_loop_same_data {R W} `{!ReadSeeker R} `{!Writer W}
    (fuel : nat) (p p' other other' : PCMAudio) :
  data p = data p' -> data other = data other' ->
  Merge_loop (R:=R) (W:=W) fuel p other = Merge_loop fuel p' other'.
Proof.
  intros Hp Ho. induction fuel as [|fuel IH]; [reflexivity|].
  simpl. rewrite Hp, Ho, IH. reflexivity.
Qed.

Lemma Merge_same_channels {R W} `{!ReadSeeker R} `{!Writer W}
    (fuel : nat) (p other : PCMAudio) (c1 c2 : Z) :
  Merge (R:=R) (W:=W) fuel (with_channels p c1) (with_channels other c2)
  = Merge fuel p other.
Proof.
  unfold Merge.
  rewrite (Merge_loop_same_data fuel (with_channels p c1) p
             (with_channels other c2) other) by reflexivity.
  reflexivity.
Qed.

(** ** Failing writes reach the caller

    A sink with room for ten bytes cannot take the header; one with room
    for the header only fails on the first sample. *)
Example Merge_header_write_fails :
  exists w',
    Merge 3 sample_left sample_right
      {| sources := sources equal_world; sink := mkLimited [] 10 |}
    = Return (Some (errors_New "could not write headers: short write")) w'.
Proof. eexists. vm_compute. reflexivity. Qed.

Example Merge_sample_write_fails :
  exists w',
    Merge 3 sample_left sample_right
      {| sources := sources equal_world; sink := mkLimited [] 45 |}
    = Return (Some (errors_New "error writing left sample: short write")) w'.
Proof. eexists. vm_compute. reflexivity. Qed.

(** ** Two handles over one source

    The cursor is the source's: when both handles refer to the same
    source, the reads of the two sides alternate on one cursor, and the
    output is the payload itself, not each frame twice.  Hence the
    statements on the order of the frames ask for distinct sources. *)
Example Merge_shared_source :
  exists w',
    Merge 10 sample_left sample_left equal_world = Return None w'
    /\ skipn 44 (sink w') = [x01; x02; x03; x04].
Proof. eexists. split; [vm_compute; reflexivity | reflexivity]. Qed.

(** ** From the sources to the merged output

    The handles that [NewPCMAudio] and [Validate] make from the two sample
    sources are the ones the statements below are about. *)
Example open_validate_merge :
  exists w1 w2 w3 pL pR,
    NewPCMAudio 2 0 equal_world = Return (Some pL, None) w1
    /\ NewPCMAudio 2 1 w1 = Return (Some pR, None) w2
    /\ fst (Validate pL) = sample_left
    /\ fst (Validate pR) = sample_right
    /\ Merge 3 (fst (Validate pL)) (fst (Validate pR)) w2 = Return None w3
    /\ skipn 44 (sink w3) = [x01; x02; x11; x12; x03; x04; x13; x14].
Proof.
  eexists _, _, _, _, _.
  split; [vm_compute; reflexivity|]. split; [vm_compute; reflexivity|].
  split; [reflexivity|]. split; [reflexivity|].
  split; [vm_compute; reflexivity|]. reflexivity.
Qed.

(** * The claims *)

(** C1.  The claim: with N frames on the left and M > N on the right,
    [Merge] pads the left side with M - N zero frames and writes 2M frames,
    its loop ending only when both sides are exhausted.  The code does
    otherwise: here the left payload holds one frame and the right one
    three; [Merge] writes four frames (the two first frames, one zero
    frame, the second right frame) and returns, the third right frame
    never being written and the right cursor staying before the end: six
    frames were claimed.  By [Merge_left_short] the output is 2(N+1)
    frames whenever M > N. *)
Theorem Merge_unequal_stops_early :
  exists w' r,
    Merge 10 sample_left sample_right unequal_world = Return None w'
    /\ skipn 44 (sink w') = [x01; x02; x11; x12; x00; x00; x13; x14]
    /\ length (skipn 44 (sink w')) <> (2 * 3 * sample_size sample_left)%nat
    /\ sources w' !! data sample_right = Some r
    /\ (i r < length (s r))%nat.
Proof.
  eexists _, _. split; [vm_compute; reflexivity|]. split; [reflexivity|].
  split; [vm_compute; discriminate|]. split; [reflexivity|].
  vm_compute. lia.
Qed.

(** C2, as amended.  Two validated handles over two distinct sources whose
    payloads both hold exactly [n] full frames: [Merge] succeeds and writes,
    after the header, exactly [2n] frames; output frame [2j] is frame [j]
    of the left payload and output frame [2j+1] is frame [j] of the right
    one. *)
Theorem Merge_interleaves_equal_streams (n fuel : nat) (p other : PCMAudio)
    (w : mem_world) (rL rR : Reader) :
  mergeable p other ->
  data p <> data other ->
  sources w !! data p = Some rL ->
  sources w !! data other = Some rR ->
  length (payload rL) = (n * sample_size p)%nat ->
  length (payload rR) = (n * sample_size p)%nat ->
  (n < fuel)%nat ->
  exists w' body,
    Merge fuel p other w = Return None w'
    /\ sink w' = sink w ++ encode_headers (Merge_headers p other) ++ body
    /\ length body = (2 * n * sample_size p)%nat
    /\ forall j, (j < n)%nat ->
         frame (sample_size p) (2 * j) body = frame (sample_size p) j (payload rL)
         /\ frame (sample_size p) (2 * j + 1) body
            = frame (sample_size p) j (payload rR).
Proof.
  intros Hm Hne HL HR HlenL HlenR Hfuel.
  destruct (Merge_equal n fuel p other w rL rR) as (w' & Heq & Hsink); trivial.
  exists w', (interleave (sample_size p) n (payload rL) (payload rR)).
  repeat split; trivial.
  - apply interleave_length; lia.
  - apply frame_interleave; trivial; lia.
  - apply frame_interleave; trivial; lia.
Qed.

Lemma Merge_interleaves_equal_streams_witness :
  exists w' body,
    Merge 3 sample_left sample_right equal_world = Return None w'
    /\ sink w' = sink equal_world
                 ++ encode_headers (Merge_headers sample_left sample_right) ++ body
    /\ length body = (2 * 2 * sample_size sample_left)%nat
    /\ forall j, (j < 2)%nat ->
         frame (sample_size sample_left) (2 * j) body
         = frame (sample_size sample_left) j (payload (sample_source [x01; x02; x03; x04]))
         /\ frame (sample_size sample_left) (2 * j + 1) body
            = frame (sample_size sample_left) j (payload (sample_source [x11; x12; x13; x14])).
Proof.
  apply (Merge_interleaves_equal_streams 2 3 sample_left sample_right equal_world
           (sample_source [x01; x02; x03; x04]) (sample_source [x11; x12; x13; x14])).
  - repeat split; reflexivity.
  - discriminate.
  - reflexivity.
  - reflexivity.
  - reflexivity.
  - reflexivity.
  - lia.
Defined.

(** C2, as stated, fails when the two handles refer to one source.  Here
    the same validated handle stands on both sides and its payload holds
    exactly two full frames, so every condition of the claim is met; the
    two sides read from the one cursor in turn and [Merge] writes two
    frames after the header, not four. *)
Lemma Merge_interleaves_one_source_counterexample :
  mergeable sample_left sample_left
  /\ sources equal_world !! data sample_left
     = Some (sample_source [x01; x02; x03; x04])
  /\ length (payload (sample_source [x01; x02; x03; x04]))
     = (2 * sample_size sample_left)%nat
  /\ ~ (exists w' body,
         Merge 3 sample_left sample_left equal_world = Return None w'
         /\ sink w' = sink equal_world
                      ++ encode_headers (Merge_headers sample_left sample_left)
                      ++ body
         /\ length body = (2 * 2 * sample_size sample_left)%nat
         /\ forall j, (j < 2)%nat ->
              frame (sample_size sample_left) (2 * j) body
              = frame (sample_size sample_left) j
                  (payload (sample_source [x01; x02; x03; x04]))
              /\ frame (sample_size sample_left) (2 * j + 1) body
                 = frame (sample_size sample_left) j
                     (payload (sample_source [x01; x02; x03; x04]))).
Proof.
  split; [repeat split; reflexivity|]. split; [reflexivity|].
  split; [reflexivity|].
  intros (w' & body & Heq & Hsink & Hlen & _).
  assert (Hwritten : length (sink w') = 48%nat).
  { set (written := fun r : result mem_world (option error) Empty_set =>
                      match r with
                      | Return _ w0 => length (sink w0)
                      | _ => 0%nat
                      end).
    change (written (Return None w') = 48%nat).
    rewrite <- Heq. vm_compute. reflexivity. }
  rewrite Hsink, !length_app, encode_headers_length, Hlen in Hwritten.
  vm_compute in Hwritten. discriminate Hwritten.
Qed.

(** C3.  Every [Merge] of two validated handles that agree on rate and
    depth succeeds on in-memory sources, and the first 44 bytes it writes
    are the encoding of a header with two channels, the sum of the two data
    sizes, a block alignment of twice the sample size, the byte rate and
    total size that follow from them (in the 32-bit arithmetic of the
    fields), and the four canonical tags; the samples come after. *)
Theorem Merge_writes_header (fuel : nat) (p other : PCMAudio)
    (w : mem_world) (rL rR : Reader) :
  mergeable p other ->
  wf_headers p ->
  sources w !! data p = Some rL ->
  sources w !! data other = Some rR ->
  (length (payload rL) < fuel)%nat ->
  exists w' body h,
    Merge fuel p other w = Return None w'
    /\ sink w' = sink w ++ encode_headers h ++ body
    /\ length (encode_headers h) = 44%nat
    /\ decode_headers (encode_headers h) = Some h
    /\ NumChannels h = 2
    /\ SubChunk2Size h = u32 (SubChunk2Size p + SubChunk2Size other)
    /\ BlockAlign h = 2 * (BitsPerSample p / 8)
    /\ ByteRate h = u32 (SampleRate p * BlockAlign h)
    /\ ChunkSize h = u32 (36 + SubChunk2Size h)
    /\ string_of (slice4 (ChunkID h)) = "RIFF"
    /\ string_of (slice4 (Format h)) = "WAVE"
    /\ string_of (slice4 (SubChunk1ID h)) = "fmt "
    /\ string_of (slice4 (SubChunk2ID h)) = "data".
Proof.
  intros Hm Hwf HL HR Hfuel.
  destruct (Merge_total fuel p other w rL rR) as (w' & body & Heq & Hsink); trivial.
  exists w', body, (Merge_headers p other).
  split; [exact Heq|]. split; [exact Hsink|].
  split; [apply encode_headers_length|].
  split; [apply decode_encode_headers, Merge_headers_wf, Hwf|].
  apply Merge_headers_fields. apply Hwf.
Qed.

Lemma Merge_writes_header_witness :
  exists w' body h,
    Merge 5 sample_left sample_right equal_world = Return None w'
    /\ sink w' = sink equal_world ++ encode_headers h ++ body
    /\ length (encode_headers h) = 44%nat
    /\ decode_headers (encode_headers h) = Some h
    /\ NumChannels h = 2
    /\ SubChunk2Size h = u32 (SubChunk2Size sample_left + SubChunk2Size sample_right)
    /\ BlockAlign h = 2 * (BitsPerSample sample_left / 8)
    /\ ByteRate h = u32 (SampleRate sample_left * BlockAlign h)
    /\ ChunkSize h = u32 (36 + SubChunk2Size h)
    /\ string_of (slice4 (ChunkID h)) = "RIFF"
    /\ string_of (slice4 (Format h)) = "WAVE"
    /\ string_of (slice4 (SubChunk1ID h)) = "fmt "
    /\ string_of (slice4 (SubChunk2ID h)) = "data".
Proof.
  apply (Merge_writes_header 5 sample_left sample_right equal_world
           (sample_source [x01; x02; x03; x04]) (sample_source [x11; x12; x13; x14])).
  - repeat split; reflexivity.
  - constructor; unfold is_u32, is_u16; simpl; lia.
  - reflexivity.
  - reflexivity.
  - vm_compute. lia.
Defined.

(** C4.  [Validate] is the specification's list of five checks, made in
    that order, the first failing one deciding the error; the five errors
    are pairwise distinct; a codec id of 2 (with the three tags before it
    in order) gives the "not PCM" error whatever the other fields hold; and
    success is answered exactly when all five checks pass, in which case
    the handle is flagged valid. *)
Theorem Validate_checks_in_order (p : PCMAudio) :
  Validate p = validate_spec p
  /\ (forall c1 c2, check_error c1 = check_error c2 -> c1 = c2)
  /\ (passes p ContainerTag = true -> passes p FormatTag = true ->
      passes p FmtChunkTag = true -> AudioFormat p = 2 ->
      snd (Validate p) = (false, Some (errors_New "provided data is not PCM audio")))
  /\ (snd (Validate p) = (true, None) <-> forall c, passes p c = true)
  /\ (snd (Validate p) = (true, None) -> valid (fst (Validate p)) = true)
  /\ (snd (Validate p) <> (true, None) ->
      fst (Validate p) = p /\ exists c, snd (Validate p) = (false, Some (check_error c))).
Proof.
  assert (Hspec : Validate p = validate_spec p).
  { unfold Validate, validate_spec, first_failure, checks. simpl List.find.
    unfold chunkID, format, subChunkID, subChunk2ID, subChunk1Size, audioFormat.
    rewrite <- negb_andb.
    repeat match goal with
           | |- context [negb ?b] => destruct b; cbn [negb]
           end; reflexivity. }
  split; [exact Hspec|].
  split; [intros [] []; intros H; try reflexivity; discriminate H|].
  rewrite Hspec. unfold validate_spec, first_failure, checks. cbn [List.find].
  split; [|split; [|split]].
  - intros H1 H2 H3 Hcodec. rewrite H1, H2, H3. cbn [negb].
    unfold passes at 1. rewrite Hcodec. rewrite andb_false_r. reflexivity.
  - split.
    + intros H c.
      destruct (passes p ContainerTag) eqn:E1; cbn [negb] in H; [|discriminate H].
      destruct (passes p FormatTag) eqn:E2; cbn [negb] in H; [|discriminate H].
      destruct (passes p FmtChunkTag) eqn:E3; cbn [negb] in H; [|discriminate H].
      destruct (passes p PCMFormat) eqn:E4; cbn [negb] in H; [|discriminate H].
      destruct (passes p DataChunkTag) eqn:E5; cbn [negb] in H; [|discriminate H].
      destruct c; assumption.
    + intros H. rewrite !H. reflexivity.
  - repeat match goal with
           | |- context [negb ?b] => destruct b; cbn [negb]
           end; simpl; intros H; try reflexivity; discriminate H.
  - repeat match goal with
           | |- context [negb ?b] => destruct b; cbn [negb]
           end; cbn [fst snd]; intros H; try (exfalso; apply H; reflexivity);
      (split; [reflexivity | eexists; reflexivity]).
Qed.

Lemma Validate_checks_in_order_witness :
  snd (Validate (with_channels
                   {| headers_of :=
                        mkHeaders (ChunkID sample_headers) 40 (Format sample_headers)
                          (SubChunk1ID sample_headers) 16 2 1 8000 16000 2 16
                          (SubChunk2ID sample_headers) 4;
                      data := 0; valid := false |} 1))
  = (false, Some (errors_New "provided data is not PCM audio")).
Proof.
  apply (Validate_checks_in_order
           (with_channels
              {| headers_of :=
                   mkHeaders (ChunkID sample_headers) 40 (Format sample_headers)
                     (SubChunk1ID sample_headers) 16 2 1 8000 16000 2 16
                     (SubChunk2ID sample_headers) 4;
                 data := 0; valid := false |} 1));
    reflexivity.
Defined.



(** C6.  When a precondition fails, [Merge] returns the error of the first
    failing check, the three errors being distinct, and leaves the world
    as it was: nothing went to the sink and no source was touched.  The
    handles are values that [Merge] only reads. *)
Theorem Merge_precondition_failure {R W} `{!ReadSeeker R} `{!Writer W}
    (fuel : nat) (p other : PCMAudio) (w : @world R W) :
  (valid p = false \/ valid other = false ->
   Merge fuel p other w
   = Return (Some (errors_New "validate each audio file first")) w)
  /\ (valid p = true -> valid other = true ->
      SampleRate p <> SampleRate other ->
      Merge fuel p other w
      = Return (Some (errors_New "rate of both audio files must match")) w)
  /\ (valid p = true -> valid other = true ->
      SampleRate p = SampleRate other ->
      BitsPerSample p <> BitsPerSample other ->
      Merge fuel p other w
      = Return (Some (errors_New "bits per sample of both audio files must match")) w)
  /\ List.NoDup Merge_precondition_errors.
Proof.
  unfold Merge. repeat split.
  - intros [Hv|Hv]; rewrite Hv; [|rewrite orb_true_r]; reflexivity.
  - intros Hv1 Hv2 Hrate. apply Z.eqb_neq in Hrate.
    rewrite Hv1, Hv2, Hrate. reflexivity.
  - intros Hv1 Hv2 Hrate Hbits. apply Z.eqb_eq in Hrate. apply Z.eqb_neq in Hbits.
    rewrite Hv1, Hv2, Hrate, Hbits. reflexivity.
  - unfold Merge_precondition_errors.
    repeat (constructor; [simpl; intros H1; intuition discriminate|]).
    constructor.
Qed.

Lemma Merge_precondition_failure_witness :
  Merge 0 (mkPCMAudio sample_headers 0 false) sample_right equal_world
  = Return (Some (errors_New "validate each audio file first")) equal_world.
Proof.
  apply (Merge_precondition_failure 0 (mkPCMAudio sample_headers 0 false)
           sample_right equal_world).
  left. reflexivity.
Defined.

(** C7.  For every header value within the widths of its fields, the
    encoding is 44 bytes long and decodes to the header again; and
    [NewPCMAudio] on a source that starts with what [binary.Write] sent to
    a sink answers a handle holding that very header. *)
Theorem headers_roundtrip (h : headers) :
  wf_headers h ->
  length (encode_headers h) = 44%nat
  /\ decode_headers (encode_headers h) = Some h
  /\ (forall (w : mem_world),
        binary_Write (E:=option error) h w = Next None (emit w (encode_headers h)))
  /\ (forall (w : mem_world) (k fuel : nat) (rest : list byte),
        sources w !! k = Some (mkReader (encode_headers h ++ rest) 0) ->
        (1 <= fuel)%nat ->
        NewPCMAudio fuel k w
        = Return (Some {| headers_of := h; data := k; valid := false |}, None)
                 (at_cursor w k (encode_headers h ++ rest) 44)).
Proof.
  intros Hwf. split; [apply encode_headers_length|].
  split; [apply decode_encode_headers, Hwf|].
  split; [reflexivity|].
  intros w k fuel rest Hk Hfuel.
  assert (Hlen : (44 <= length (skipn 0 (encode_headers h ++ rest)))%nat)
    by (rewrite drop_0, length_app, encode_headers_length; lia).
  rewrite (NewPCMAudio_enough w fuel k _ _ Hk Hlen Hfuel), drop_0.
  rewrite take_app_length' by (symmetry; apply encode_headers_length).
  rewrite (decode_encode_headers h Hwf). reflexivity.
Qed.

Lemma headers_roundtrip_witness :
  length (encode_headers sample_headers) = 44%nat
  /\ decode_headers (encode_headers sample_headers) = Some sample_headers
  /\ (forall (w : mem_world),
        binary_Write (E:=option error) sample_headers w
        = Next None (emit w (encode_headers sample_headers)))
  /\ (forall (w : mem_world) (k fuel : nat) (rest : list byte),
        sources w !! k = Some (mkReader (encode_headers sample_headers ++ rest) 0) ->
        (1 <= fuel)%nat ->
        NewPCMAudio fuel k w
        = Return (Some {| headers_of := sample_headers; data := k; valid := false |}, None)
                 (at_cursor w k (encode_headers sample_headers ++ rest) 44)).
Proof.
  apply (headers_roundtrip sample_headers).
  constructor; unfold is_u32, is_u16; simpl; lia.
Defined.

(** C8.  [NewPCMAudio] on a source with fewer than 44 bytes left returns
    an error and no handle; with 44 bytes or more left it consumes exactly
    44 of them and returns, without an error, an unvalidated handle whose
    header is the decoding of those bytes, whatever they are: the four tags
    are the raw bytes found at their offsets. *)
Theorem NewPCMAudio_reads_44_bytes (w : mem_world) (k fuel : nat)
    (src : list byte) (j : nat) :
  sources w !! k = Some (mkReader src j) ->
  (2 <= fuel)%nat ->
  ((length (skipn j src) < 44)%nat ->
   exists e w', NewPCMAudio fuel k w = Return (None, Some e) w')
  /\ ((44 <= length (skipn j src))%nat ->
      exists h,
        NewPCMAudio fuel k w
        = Return (Some {| headers_of := h; data := k; valid := false |}, None)
                 (at_cursor w k src (j + 44))
        /\ decode_headers (firstn 44 (skipn j src)) = Some h
        /\ slice4 (ChunkID h) = firstn 4 (skipn j src)
        /\ slice4 (Format h) = firstn 4 (skipn 8 (skipn j src))
        /\ slice4 (SubChunk1ID h) = firstn 4 (skipn 12 (skipn j src))
        /\ slice4 (SubChunk2ID h) = firstn 4 (skipn 36 (skipn j src))).
Proof.
  intros Hk Hfuel. split.
  - intros Hshort. eexists _, _.
    apply (NewPCMAudio_short w fuel k src j Hk Hshort Hfuel).
  - intros Hlen.
    destruct (decode_headers_total (firstn 44 (skipn j src)))
      as (h & Hdec & Ht1 & Ht2 & Ht3 & Ht4);
      [rewrite length_firstn; lia|].
    exists h.
    rewrite (NewPCMAudio_enough w fuel k src j Hk Hlen) by lia.
    rewrite Hdec. split; [reflexivity|]. split; [reflexivity|].
    rewrite Ht1, Ht2, Ht3, Ht4.
    rewrite take_take.
    rewrite !(skipn_firstn_comm _ 44), !take_take.
    repeat split.
Qed.

Lemma NewPCMAudio_reads_44_bytes_witness :
  ((length (skipn 0 (s (sample_source [x01; x02]))) < 44)%nat ->
   exists e w', NewPCMAudio 2 0 unequal_world = Return (None, Some e) w')
  /\ ((44 <= length (skipn 0 (s (sample_source [x01; x02]))))%nat ->
      exists h,
        NewPCMAudio 2 0 unequal_world
        = Return (Some {| headers_of := h; data := 0; valid := false |}, None)
                 (at_cursor unequal_world 0 (s (sample_source [x01; x02])) (0 + 44))
        /\ decode_headers (firstn 44 (skipn 0 (s (sample_source [x01; x02])))) = Some h
        /\ slice4 (ChunkID h) = firstn 4 (skipn 0 (s (sample_source [x01; x02])))
        /\ slice4 (Format h) = firstn 4 (skipn 8 (skipn 0 (s (sample_source [x01; x02]))))
        /\ slice4 (SubChunk1ID h)
           = firstn 4 (skipn 12 (skipn 0 (s (sample_source [x01; x02]))))
        /\ slice4 (SubChunk2ID h)
           = firstn 4 (skipn 36 (skipn 0 (s (sample_source [x01; x02]))))).
Proof.
  apply (NewPCMAudio_reads_44_bytes unequal_world 0 2
           (s (sample_source [x01; x02])) 0).
  - reflexivity.
  - lia.
Defined.

(** C9.  [Merge] makes no check on the channel counts: whatever counts
    [c1] and [c2] the two headers declare (two stereo inputs included), it
    runs as it does for any other counts, succeeds on validated handles
    that agree on rate and depth, and the header it writes declares two
    channels. *)
Theorem Merge_needs_no_mono_input (fuel : nat) (p other : PCMAudio) (c1 c2 : Z)
    (w : mem_world) (rL rR : Reader) :
  mergeable p other ->
  sources w !! data p = Some rL ->
  sources w !! data other = Some rR ->
  (length (payload rL) < fuel)%nat ->
  Merge fuel (with_channels p c1) (with_channels other c2) w = Merge fuel p other w
  /\ exists w' body h,
       Merge fuel (with_channels p c1) (with_channels other c2) w = Return None w'
       /\ sink w' = sink w ++ encode_headers h ++ body
       /\ NumChannels h = stereo.
Proof.
  intros Hm HL HR Hfuel.
  rewrite Merge_same_channels. split; [reflexivity|].
  destruct (Merge_total fuel p other w rL rR) as (w' & body & Heq & Hsink); trivial.
  exists w', body, (Merge_headers p other). repeat split; assumption.
Qed.

Lemma Merge_needs_no_mono_input_witness :
  Merge 5 (with_channels sample_left 2) (with_channels sample_right 2) equal_world
  = Merge 5 sample_left sample_right equal_world
  /\ exists w' body h,
       Merge 5 (with_channels sample_left 2) (with_channels sample_right 2) equal_world
       = Return None w'
       /\ sink w' = sink equal_world ++ encode_headers h ++ body
       /\ NumChannels h = stereo.
Proof.
  apply (Merge_needs_no_mono_input 5 sample_left sample_right 2 2 equal_world
           (sample_source [x01; x02; x03; x04]) (sample_source [x11; x12; x13; x14])).
  - repeat split; reflexivity.
  - reflexivity.
  - reflexivity.
  - vm_compute. lia.
Defined.

(** C10.  [chooseMode] answers mono exactly when both inputs are mono, and
    stereo exactly when they are not. *)
Theorem chooseMode_mono_iff (left right : PCMAudio) :
  (chooseMode left right = mono
   <-> NumChannels left = mono /\ NumChannels right = mono)
  /\ (chooseMode left right = stereo
      <-> ~ (NumChannels left = mono /\ NumChannels right = mono)).
Proof.
  unfold chooseMode, mono, stereo.
  destruct (Z.eqb_spec (NumChannels left) 1) as [Hl|Hl];
    destruct (Z.eqb_spec (NumChannels right) 1) as [Hr|Hr];
    cbn [andb]; repeat split; intros; try tauto; try discriminate; try lia.
Qed.

(** * Further properties of the code *)

(** ** Decoding loses nothing *)

Lemma byte_of_mod (z : Z) (b : byte) : z mod 256 = byte_val b -> byte_of z = b.
Proof.
  intros Hz. unfold byte_of. rewrite Hz. unfold byte_val.
  rewrite N2Z.id, Byte.of_to_N. reflexivity.
Qed.

Lemma Uint16_range (b0 b1 : byte) : is_u16 (LittleEndian.Uint16 b0 b1).
Proof.
  unfold is_u16, LittleEndian.Uint16.
  pose proof (byte_val_range b0). pose proof (byte_val_range b1).
  rewrite lor_shiftl_add by (pow2; lia). pow2. lia.
Qed.

Lemma Uint32_value (b0 b1 b2 b3 : byte) :
  LittleEndian.Uint32 b0 b1 b2 b3
  = byte_val b0 + byte_val b1 * 256 + byte_val b2 * 65536 + byte_val b3 * 16777216.
Proof.
  unfold LittleEndian.Uint32.
  pose proof (byte_val_range b0). pose proof (byte_val_range b1).
  pose proof (byte_val_range b2).
  rewrite (lor_shiftl_add _ _ 8) by (pow2; lia).
  rewrite (lor_shiftl_add _ _ 16) by (pow2; lia).
  rewrite (lor_shiftl_add _ _ 24) by (pow2; lia).
  pow2. reflexivity.
Qed.

Lemma Uint32_range (b0 b1 b2 b3 : byte) : is_u32 (LittleEndian.Uint32 b0 b1 b2 b3).
Proof.
  unfold is_u32. rewrite Uint32_value.
  pose proof (byte_val_range b0). pose proof (byte_val_range b1).
  pose proof (byte_val_range b2). pose proof (byte_val_range b3).
  pow2. lia.
Qed.

Lemma PutUint16_Uint16 (b0 b1 : byte) :
  LittleEndian.PutUint16 (LittleEndian.Uint16 b0 b1) = [b0; b1].
Proof.
  unfold LittleEndian.PutUint16, LittleEndian.Uint16.
  pose proof (byte_val_range b0). pose proof (byte_val_range b1).
  rewrite lor_shiftl_add by (pow2; lia).
  rewrite Z.shiftr_div_pow2 by lia.
  f_equal; [|f_equal]; apply byte_of_mod; zdiv.
Qed.

Lemma PutUint32_Uint32 (b0 b1 b2 b3 : byte) :
  LittleEndian.PutUint32 (LittleEndian.Uint32 b0 b1 b2 b3) = [b0; b1; b2; b3].
Proof.
  unfold LittleEndian.PutUint32. rewrite Uint32_value.
  pose proof (byte_val_range b0). pose proof (byte_val_range b1).
  pose proof (byte_val_range b2). pose proof (byte_val_range b3).
  rewrite !Z.shiftr_div_pow2 by lia.
  repeat (f_equal; [apply byte_of_mod; zdiv|]).
  f_equal. apply byte_of_mod. zdiv.
Qed.

(** X1.  Whatever [binary.Read] decodes was 44 bytes long, every integer
    field of the record is within the width of its Go type, and writing
    the record with [binary.Write] gives the very bytes back. *)
Theorem decode_headers_lossless (bs : list byte) (h : headers) :
  decode_headers bs = Some h ->
  length bs = 44%nat /\ wf_headers h /\ encode_headers h = bs.
Proof.
  intros Hdec.
  do 44 (destruct bs as [|? bs]; [discriminate Hdec|]).
  destruct bs; [|discriminate Hdec].
  injection Hdec as <-.
  split; [reflexivity|]. split.
  - constructor; simpl; first [apply Uint32_range | apply Uint16_range].
  - unfold encode_headers.
    cbn [ChunkID ChunkSize Format SubChunk1ID SubChunk1Size AudioFormat
         NumChannels SampleRate ByteRate BlockAlign BitsPerSample
         SubChunk2ID SubChunk2Size].
    rewrite !PutUint32_Uint32, !PutUint16_Uint16. reflexivity.
Qed.

Lemma decode_headers_lossless_witness :
  length (encode_headers sample_headers) = 44%nat
  /\ wf_headers sample_headers
  /\ encode_headers sample_headers = encode_headers sample_headers.
Proof.
  apply (decode_headers_lossless (encode_headers sample_headers) sample_headers).
  vm_compute. reflexivity.
Defined.

(** ** What [NewPCMAudio] never does *)

Section AnySource.
Context {R W : Type} `{!ReadSeeker R} `{!Writer W}.

Lemma Read_at_sink {E} (k n : nat) (w w' : @world R W) a :
  Read_at (E:=E) k n w = Next a w' -> sink w' = sink w.
Proof.
  unfold Read_at. destruct (sources w !! k) as [r|]; [|discriminate].
  destruct (Read r n) as [[r' d] err]. intros H. injection H as _ <-. reflexivity.
Qed.

Lemma Read_at_no_return {E} (k n : nat) (w w' : @world R W) (e : E) :
  Read_at (E:=E) k n w <> Return e w'.
Proof.
  unfold Read_at. destruct (sources w !! k) as [r|]; [|discriminate].
  destruct (Read r n) as [[r' d] err]. discriminate.
Qed.

(** Reading a full buffer writes nothing and never returns from the
    function in whose body it runs. *)
Lemma ReadAtLeast_loop_sink {E} (fuel k min : nat) :
  forall (acc : list byte) (err : option error) (w : @world R W),
  match ReadAtLeast_loop (E:=E) fuel k min acc err w with
  | Next _ w' => sink w' = sink w
  | Return _ _ => False
  | _ => True
  end.
Proof.
  induction fuel as [|fuel IH]; intros acc err w; simpl;
    destruct ((length acc <? min)%nat && is_nil err);
    try reflexivity; try exact I.
  unfold mbind, M_bind.
  destruct (Read_at k (min - length acc) w) as [[d err'] w1| e w1 | |] eqn:Hread;
    try exact I.
  - specialize (IH (acc ++ d) err' w1).
    destruct (ReadAtLeast_loop fuel k min (acc ++ d) err' w1); try assumption.
    rewrite IH. apply (Read_at_sink _ _ _ _ _ Hread).
  - exact (Read_at_no_return _ _ _ _ _ Hread).
Qed.

Lemma binary_Read_sink {E} (fuel k : nat) (w : @world R W) :
  match binary_Read (E:=E) fuel k w with
  | Next _ w' => sink w' = sink w
  | Return _ _ => False
  | _ => True
  end.
Proof.
  unfold binary_Read, ReadFull, mbind, M_bind.
  pose proof (ReadAtLeast_loop_sink (E:=E) fuel k headers_size [] None w) as H.
  destruct (ReadAtLeast_loop fuel k headers_size [] None w) as [[acc err] w1| | |];
    try assumption.
  destruct (headers_size <=? length acc)%nat; [exact H|].
  destruct ((0 <? length acc)%nat && is_EOF err); [exact H|].
  cbn [mret M_ret]. destruct (is_nil err); exact H.
Qed.

(** X2.  Whatever the source and the sink are: a handle that
    [NewPCMAudio] returns comes without an error, refers to the source it
    was made from and is not flagged valid; making it wrote nothing; and
    [Merge] refuses it, on either side, until it is validated. *)
Theorem NewPCMAudio_handle_is_unvalidated (fuel k : nat) (w w' : @world R W)
    (p : PCMAudio) (e : option error) :
  NewPCMAudio fuel k w = Return (Some p, e) w' ->
  e = None /\ data p = k /\ valid p = false /\ sink w' = sink w
  /\ forall fuel' other (w2 : @world R W),
       Merge fuel' p other w2
       = Return (Some (errors_New "validate each audio file first")) w2
       /\ Merge fuel' other p w2
          = Return (Some (errors_New "validate each audio file first")) w2.
Proof.
  unfold NewPCMAudio, mbind, M_bind.
  pose proof (binary_Read_sink (E:=option PCMAudio * option error) fuel k w) as Hsink.
  destruct (binary_Read fuel k w) as [[h err] w1| | |]; try discriminate;
    [|contradiction].
  destruct err as [err|]; simpl; [discriminate|].
  intros H. injection H as <- <- <-.
  repeat split; trivial.
  unfold Merge. simpl. rewrite orb_true_r. reflexivity.
Qed.

End AnySource.

Lemma NewPCMAudio_handle_is_unvalidated_witness :
  (None : option error) = None /\ data (mkPCMAudio sample_headers 0 false) = 0%nat
  /\ valid (mkPCMAudio sample_headers 0 false) = false
  /\ sink (at_cursor equal_world 0 (s (sample_source [x01; x02; x03; x04])) 44)
     = sink equal_world
  /\ forall fuel' other (w2 : mem_world),
       Merge fuel' (mkPCMAudio sample_headers 0 false) other w2
       = Return (Some (errors_New "validate each audio file first")) w2
       /\ Merge fuel' other (mkPCMAudio sample_headers 0 false) w2
          = Return (Some (errors_New "validate each audio file first")) w2.
Proof.
  apply (NewPCMAudio_handle_is_unvalidated 2 0 equal_world
           (at_cursor equal_world 0 (s (sample_source [x01; x02; x03; x04])) 44)
           (mkPCMAudio sample_headers 0 false) None).
  vm_compute. reflexivity.
Defined.

(** X3.  On a source that ends before 44 bytes, [NewPCMAudio] consumes
    what is left and reports the end in its error: "EOF" when nothing was
    left, "unexpected EOF" when the header was cut short. *)
Theorem NewPCMAudio_short_source_error (w : mem_world) (fuel k : nat)
    (src : list byte) (j : nat) :
  sources w !! k = Some (mkReader src j) ->
  (length (skipn j src) < 44)%nat ->
  (2 <= fuel)%nat ->
  NewPCMAudio fuel k w
  = Return (None,
            Some (errors_New
                    (if (length (skipn j src) =? 0)%nat
                     then "could not read and parse the recieved data: EOF"
                     else "could not read and parse the recieved data: unexpected EOF")))
           (at_cursor w k src (j + length (skipn j src))).
Proof.
  intros Hk Hshort Hfuel.
  rewrite (NewPCMAudio_short w fuel k src j Hk Hshort Hfuel).
  destruct (length (skipn j src) =? 0)%nat; reflexivity.
Qed.

Lemma NewPCMAudio_short_source_error_witness :
  NewPCMAudio 2 0 (at_cursor equal_world 0 (s (sample_source [x01; x02])) 10)
  = Return (None,
            Some (errors_New
                    (if (length (skipn 10 (s (sample_source [x01; x02]))) =? 0)%nat
                     then "could not read and parse the recieved data: EOF"
                     else "could not read and parse the recieved data: unexpected EOF")))
           (at_cursor (at_cursor equal_world 0 (s (sample_source [x01; x02])) 10) 0
              (s (sample_source [x01; x02]))
              (10 + length (skipn 10 (s (sample_source [x01; x02]))))).
Proof.
  apply (NewPCMAudio_short_source_error
           (at_cursor equal_world 0 (s (sample_source [x01; x02])) 10) 2 0
           (s (sample_source [x01; x02])) 10).
  - reflexivity.
  - vm_compute. lia.
  - lia.
Defined.

(** ** What [Validate] keeps and what it looks at *)

(** X4.  [Validate] changes nothing of a handle but its flag, and only
    ever raises it: a handle flagged valid stays so when a later
    validation fails.  Validating again gives the same verdict and leaves
    the handle as the first validation left it. *)
Theorem Validate_only_raises_flag (p : PCMAudio) :
  headers_of (fst (Validate p)) = headers_of p
  /\ data (fst (Validate p)) = data p
  /\ valid (fst (Validate p)) = valid p || fst (snd (Validate p))
  /\ Validate (fst (Validate p)) = (fst (Validate p), snd (Validate p)).
Proof.
  unfold Validate.
  destruct (negb (String.eqb (string_of (slice4 (ChunkID p))) chunkID)) eqn:E1;
    cbn [fst snd headers_of data valid]; rewrite ?E1;
    [rewrite orb_false_r; repeat split; reflexivity|].
  destruct (negb (String.eqb (string_of (slice4 (Format p))) format)) eqn:E2;
    cbn [fst snd headers_of data valid]; rewrite ?E1, ?E2;
    [rewrite orb_false_r; repeat split; reflexivity|].
  destruct (negb (String.eqb (string_of (slice4 (SubChunk1ID p))) subChunkID)) eqn:E3;
    cbn [fst snd headers_of data valid]; rewrite ?E1, ?E2, ?E3;
    [rewrite orb_false_r; repeat split; reflexivity|].
  destruct (negb (SubChunk1Size p =? subChunk1Size)
            || negb (AudioFormat p =? audioFormat)) eqn:E4;
    cbn [fst snd headers_of data valid]; rewrite ?E1, ?E2, ?E3, ?E4;
    [rewrite orb_false_r; repeat split; reflexivity|].
  destruct (negb (String.eqb (string_of (slice4 (SubChunk2ID p))) subChunk2ID)) eqn:E5;
    cbn [fst snd headers_of data valid]; rewrite ?E1, ?E2, ?E3, ?E4, ?E5;
    [rewrite orb_false_r; repeat split; reflexivity|].
  rewrite orb_true_r. repeat split; reflexivity.
Qed.

(** X5.  The verdict of [Validate] depends on six fields only: the four
    tags, the size of the format chunk and the codec id.  The sizes, the
    channel count, the rates, the block alignment and the bit depth are
    not looked at, so a header whose derived fields disagree is accepted
    like any other. *)
Theorem Validate_looks_at_six_fields (p q : PCMAudio) :
  ChunkID p = ChunkID q ->
  Format p = Format q ->
  SubChunk1ID p = SubChunk1ID q ->
  SubChunk1Size p = SubChunk1Size q ->
  AudioFormat p = AudioFormat q ->
  SubChunk2ID p = SubChunk2ID q ->
  snd (Validate p) = snd (Validate q).
Proof.
  intros H1 H2 H3 H4 H5 H6. unfold Validate.
  rewrite H1, H2, H3, H4, H5, H6.
  repeat match goal with
         | |- context [if ?b then _ else _] => destruct b
         end; reflexivity.
Qed.

Lemma Validate_looks_at_six_fields_witness :
  snd (Validate sample_left)
  = snd (Validate
           {| headers_of :=
                mkHeaders (ChunkID sample_headers) 0 (Format sample_headers)
                  (SubChunk1ID sample_headers) 16 1 7 1 2 3 0
                  (SubChunk2ID sample_headers) 99;
              data := 5; valid := false |}).
Proof.
  apply (Validate_looks_at_six_fields sample_left
           {| headers_of :=
                mkHeaders (ChunkID sample_headers) 0 (Format sample_headers)
                  (SubChunk1ID sample_headers) 16 1 7 1 2 3 0
                  (SubChunk2ID sample_headers) 99;
              data := 5; valid := false |});
    reflexivity.
Defined.

(** ** The shared precondition check *)

(** X6.  [checkRequiredParams] answers [nil] exactly for two validated
    handles that agree on rate, depth and channel count; whenever a
    precondition of [Merge] fails, [Merge] returns the very error that
    [checkRequiredParams] gives, and touches nothing; and for handles that
    [Merge] accepts, the only error of [checkRequiredParams] is the one on
    the channel counts. *)
Theorem checkRequiredParams_extends_Merge_checks {R W} `{!ReadSeeker R} `{!Writer W}
    (fuel : nat) (p other : PCMAudio) (w : @world R W) :
  (checkRequiredParams p other = None <-> concatenable p other)
  /\ (~ mergeable p other ->
      Merge fuel p other w = Return (checkRequiredParams p other) w)
  /\ (mergeable p other -> NumChannels p <> NumChannels other ->
      checkRequiredParams p other
      = Some (errors_New "number of channels of both audio files must match")).
Proof.
  unfold checkRequiredParams, concatenable, mergeable, Merge.
  destruct (valid p), (valid other),
    (Z.eqb_spec (SampleRate p) (SampleRate other)),
    (Z.eqb_spec (BitsPerSample p) (BitsPerSample other)),
    (Z.eqb_spec (NumChannels p) (NumChannels other));
    cbn [negb orb]; repeat split; intros; try reflexivity;
    try discriminate; try (intuition congruence).
Qed.

Lemma checkRequiredParams_extends_Merge_checks_witness :
  Merge 0 (mkPCMAudio sample_headers 0 false) sample_right equal_world
  = Return (checkRequiredParams (mkPCMAudio sample_headers 0 false) sample_right)
           equal_world.
Proof.
  apply (checkRequiredParams_extends_Merge_checks 0
           (mkPCMAudio sample_headers 0 false) sample_right equal_world).
  intros (Hv & _). discriminate Hv.
Defined.

(** X7.  [chooseMode] does not depend on the order of its arguments, and
    for two handles that [checkRequiredParams] accepts it answers their
    common channel count when that is mono or stereo, and stereo for any
    other count. *)
Theorem chooseMode_of_compatible_handles (left right : PCMAudio) :
  chooseMode left right = chooseMode right left
  /\ (checkRequiredParams left right = None ->
      (NumChannels left = mono \/ NumChannels left = stereo ->
       chooseMode left right = NumChannels left)
      /\ (NumChannels left <> mono -> chooseMode left right = stereo)).
Proof.
  unfold chooseMode, checkRequiredParams, mono, stereo.
  destruct (valid left), (valid right),
    (Z.eqb_spec (SampleRate left) (SampleRate right)),
    (Z.eqb_spec (BitsPerSample left) (BitsPerSample right)),
    (Z.eqb_spec (NumChannels left) (NumChannels right)),
    (Z.eqb_spec (NumChannels left) 1), (Z.eqb_spec (NumChannels right) 1);
    cbn [negb orb andb]; repeat split; intros; try reflexivity;
    try discriminate; try lia.
Qed.

Lemma chooseMode_of_compatible_handles_witness :
  (NumChannels sample_left = mono \/ NumChannels sample_left = stereo ->
   chooseMode sample_left sample_right = NumChannels sample_left)
  /\ (NumChannels sample_left <> mono -> chooseMode sample_left sample_right = stereo).
Proof.
  apply (chooseMode_of_compatible_handles sample_left sample_right).
  reflexivity.
Defined.

(** ** Failures of the sink and of the sources in [Merge] *)

Section AnyWorld.
Context {R W : Type} `{!ReadSeeker R} `{!Writer W}.

Lemma Merge_checks_pass (fuel : nat) (p other : PCMAudio) (w : @world R W) :
  mergeable p other ->
  Merge fuel p other w =
    (err ← binary_Write (Merge_headers p other);
     when (negb (is_nil err))
       (return_ (Some (Errorf "could not write headers: " err)));;
     '(_, err) ← Seek_at (data p) 44 SeekStart;
     when (negb (is_nil err))
       (return_ (Some (Errorf "could not seek left: " err)));;
     '(_, err) ← Seek_at (data other) 44 SeekStart;
     when (negb (is_nil err))
       (return_ (Some (Errorf "could not seek right: " err)));;
     Merge_loop fuel p other (sample_size p) (make (sample_size p))
       (make (sample_size p));;
     return_ None) w.
Proof.
  intros (Hv1 & Hv2 & Hrate & Hbits). apply Z.eqb_eq in Hrate, Hbits.
  unfold Merge. rewrite Hv1, Hv2, Hrate, Hbits. reflexivity.
Qed.

(** X8.  When the sink refuses the header, [Merge] returns "could not
    write headers: " followed by the sink's error, whatever the sink took
    of the header stays written, and no source is read or moved. *)
Theorem Merge_header_write_error (fuel : nat) (p other : PCMAudio) (w : @world R W)
    (o' : W) (n : nat) (e : error) :
  mergeable p other ->
  Write (sink w) (encode_headers (Merge_headers p other)) = (o', n, Some e) ->
  Merge fuel p other w
  = Return (Some (errors_New (String.append "could not write headers: " (Error e))))
           {| sources := sources w; sink := o' |}.
Proof.
  intros Hm Hw. rewrite (Merge_checks_pass fuel p other w Hm).
  unfold binary_Write, Write_out, mbind, M_bind. rewrite Hw. reflexivity.
Qed.

(** X9.  When the left source cannot seek, [Merge] returns "could not
    seek left: " followed by the source's error: the header is in the sink
    already, no sample follows it, and the right source is not touched. *)
Theorem Merge_seek_left_error (fuel : nat) (p other : PCMAudio) (w : @world R W)
    (o' : W) (n : nat) (r r' : R) (pos : Z) (e : error) :
  mergeable p other ->
  Write (sink w) (encode_headers (Merge_headers p other)) = (o', n, None) ->
  sources w !! data p = Some r ->
  Seek r 44 SeekStart = (r', pos, Some e) ->
  Merge fuel p other w
  = Return (Some (errors_New (String.append "could not seek left: " (Error e))))
           {| sources := <[data p := r']> (sources w); sink := o' |}.
Proof.
  intros Hm Hw Hr Hs. rewrite (Merge_checks_pass fuel p other w Hm).
  unfold binary_Write, Write_out, Seek_at, mbind, M_bind. rewrite Hw.
  cbn [mret M_ret is_nil negb when sources sink]. rewrite Hr, Hs. reflexivity.
Qed.

(** X10.  The precondition checks do not look at the sources: with a
    validated handle that has no source, [Merge] writes the header and
    then panics on the nil source instead of returning an error. *)
Theorem Merge_nil_source_panics (fuel : nat) (p other : PCMAudio) (w : @world R W)
    (o' : W) (n : nat) :
  mergeable p other ->
  Write (sink w) (encode_headers (Merge_headers p other)) = (o', n, None) ->
  sources w !! data p = None ->
  Merge fuel p other w = Panic.
Proof.
  intros Hm Hw Hr. rewrite (Merge_checks_pass fuel p other w Hm).
  unfold binary_Write, Write_out, Seek_at, mbind, M_bind. rewrite Hw.
  cbn [mret M_ret is_nil negb when sources sink]. rewrite Hr. reflexivity.
Qed.

End AnyWorld.

Lemma Merge_header_write_error_witness :
  Merge 3 sample_left sample_right (limited_world 10)
  = Return (Some (errors_New
                    (String.append "could not write headers: "
                       (Error (errors_New "short write")))))
           {| sources := sources (limited_world 10);
              sink := mkLimited
                        (firstn 10 (encode_headers (Merge_headers sample_left sample_right)))
                        0 |}.
Proof.
  apply (Merge_header_write_error 3 sample_left sample_right (limited_world 10)
           (mkLimited
              (firstn 10 (encode_headers (Merge_headers sample_left sample_right))) 0)
           10 (errors_New "short write")).
  - repeat split; reflexivity.
  - reflexivity.
Defined.

Lemma Merge_seek_left_error_witness :
  Merge 3 sample_left sample_right closed_left_world
  = Return (Some (errors_New (String.append "could not seek left: " (Error ErrClosed))))
           {| sources :=
                <[data sample_left := mkFile (sample_source [x01; x02; x03; x04]) true]>
                  (sources closed_left_world);
              sink := encode_headers (Merge_headers sample_left sample_right) |}.
Proof.
  apply (Merge_seek_left_error 3 sample_left sample_right closed_left_world
           (encode_headers (Merge_headers sample_left sample_right)) 44
           (mkFile (sample_source [x01; x02; x03; x04]) true)
           (mkFile (sample_source [x01; x02; x03; x04]) true) 0 ErrClosed).
  - repeat split; reflexivity.
  - reflexivity.
  - reflexivity.
  - reflexivity.
Defined.

Lemma Merge_nil_source_panics_witness :
  Merge 3 (mkPCMAudio sample_headers 7 true) sample_right equal_world = Panic.
Proof.
  apply (Merge_nil_source_panics 3 (mkPCMAudio sample_headers 7 true) sample_right
           equal_world
           (encode_headers (Merge_headers (mkPCMAudio sample_headers 7 true) sample_right))
           44).
  - repeat split; reflexivity.
  - reflexivity.
  - reflexivity.
Defined.

(** ** The earlier interface and the present one *)

Section Earlier.
Context {R W : Type} `{!ReadSeeker R} `{!Writer W}.

Lemma Metadata_Merge_loop_eq (fuel : nat) (p other : PCMAudio) :
  Metadata.Merge_loop (R:=R) (W:=W) fuel (data p) (data other)
  = Merge_loop fuel p other.
Proof.
  induction fuel as [|fuel IH]; [reflexivity|].
  simpl. rewrite IH. reflexivity.
Qed.

(** X11.  The four-argument [Merge] of the earlier interface, given the
    headers of two handles and their sources, does what the present [Merge]
    does on the handles: same errors, same bytes to the sink, same moves of
    the sources.  The two byte-rate formulas agree on every bit depth. *)
Theorem Metadata_Merge_agrees (fuel : nat) (p other : PCMAudio) (w : @world R W) :
  is_u16 (BitsPerSample p) ->
  Metadata.Merge fuel
    (Metadata.mkPCMAudioMetadata (headers_of p) (valid p))
    (Metadata.mkPCMAudioMetadata (headers_of other) (valid other))
    (data p) (data other) w
  = Merge fuel p other w.
Proof.
  intros Hbits. unfold Metadata.Merge, Merge, Merge_headers.
  cbn [Metadata.valid Metadata.meta].
  rewrite Metadata_Merge_loop_eq.
  replace (u32 (u32 (SampleRate p * stereo) * (BitsPerSample p / 8)))
    with (u32 (SampleRate p * u16 (stereo * (BitsPerSample p / 8)))); [reflexivity|].
  unfold u32, u16, stereo, is_u16 in *.
  rewrite (Z.mod_small (2 * (BitsPerSample p / 8))) by zdiv.
  rewrite Zmult_mod_idemp_l. f_equal. lia.
Qed.

(** Reading the header does not depend on the function in whose body it
    runs. *)
Lemma ReadAtLeast_loop_any_body {E1 E2} (fuel k min : nat) :
  forall (acc : list byte) (err : option error) (w : @world R W),
  match ReadAtLeast_loop (E:=E1) fuel k min acc err w,
        ReadAtLeast_loop (E:=E2) fuel k min acc err w with
  | Next a w1, Next b w2 => a = b /\ w1 = w2
  | Panic, Panic => True
  | OutOfFuel, OutOfFuel => True
  | _, _ => False
  end.
Proof.
  induction fuel as [|fuel IH]; intros acc err w; simpl;
    destruct ((length acc <? min)%nat && is_nil err);
    try (split; reflexivity); try exact I.
  unfold mbind, M_bind, Read_at.
  destruct (sources w !! k) as [r|]; [|exact I].
  destruct (Read r (min - length acc)) as [[r' d] err']. apply IH.
Qed.

Lemma binary_Read_any_body {E1 E2} (fuel k : nat) (w : @world R W) :
  match binary_Read (E:=E1) fuel k w, binary_Read (E:=E2) fuel k w with
  | Next a w1, Next b w2 => a = b /\ w1 = w2
  | Panic, Panic => True
  | OutOfFuel, OutOfFuel => True
  | _, _ => False
  end.
Proof.
  unfold binary_Read, ReadFull, mbind, M_bind.
  pose proof (ReadAtLeast_loop_any_body (E1:=E1) (E2:=E2) fuel k headers_size
                [] None w) as H.
  destruct (ReadAtLeast_loop (E:=E1) fuel k headers_size [] None w)
    as [[acc1 err1] w1| | |];
    destruct (ReadAtLeast_loop (E:=E2) fuel k headers_size [] None w)
      as [[acc2 err2] w2| | |]; try contradiction; try exact I.
  destruct H as [H ->]. injection H as -> ->.
  destruct (headers_size <=? length acc2)%nat; [split; reflexivity|].
  destruct ((0 <? length acc2)%nat && is_EOF err2); [split; reflexivity|].
  cbn [mret M_ret]. destruct (is_nil err2); split; reflexivity.
Qed.

(** X12.  [NewPCMAudioMetadata] reads what [NewPCMAudio] reads: it fails
    when [NewPCMAudio] fails, with the same error, and otherwise returns
    the same header, unvalidated; and validating the record gives the
    verdict, the header and the flag that validating the handle gives. *)
Theorem Metadata_New_and_Validate_agree (fuel k : nat) (w : @world R W)
    (p : PCMAudio) :
  match NewPCMAudio fuel k w with
  | Return (Some q, e) w' =>
      Metadata.NewPCMAudioMetadata fuel k w
      = Return (Some (Metadata.mkPCMAudioMetadata (headers_of q) (valid q)), e) w'
  | Return (None, e) w' =>
      Metadata.NewPCMAudioMetadata fuel k w = Return (None, e) w'
  | Panic => Metadata.NewPCMAudioMetadata fuel k w = Panic
  | OutOfFuel => Metadata.NewPCMAudioMetadata fuel k w = OutOfFuel
  | Next a _ => match a with end
  end
  /\ snd (Metadata.Validate (Metadata.mkPCMAudioMetadata (headers_of p) (valid p)))
     = snd (Validate p)
  /\ Metadata.meta (fst (Metadata.Validate
                           (Metadata.mkPCMAudioMetadata (headers_of p) (valid p))))
     = headers_of (fst (Validate p))
  /\ Metadata.valid (fst (Metadata.Validate
                            (Metadata.mkPCMAudioMetadata (headers_of p) (valid p))))
     = valid (fst (Validate p)).
Proof.
  split.
  - unfold NewPCMAudio, Metadata.NewPCMAudioMetadata, mbind, M_bind.
    pose proof (binary_Read_any_body
                  (E1:=option PCMAudio * option error)
                  (E2:=option Metadata.PCMAudioMetadata * option error) fuel k w) as H.
    destruct (binary_Read (E:=option PCMAudio * option error) fuel k w)
      as [[h1 err1] w1| | |];
      destruct (binary_Read (E:=option Metadata.PCMAudioMetadata * option error)
                  fuel k w) as [[h2 err2] w2| | |];
      try contradiction; try reflexivity.
    destruct H as [H ->]. injection H as -> ->.
    destruct err2; reflexivity.
  - unfold Metadata.Validate, Validate. cbn [Metadata.meta Metadata.valid].
    repeat match goal with
           | |- context [if ?b then _ else _] => destruct b
           end; repeat split; reflexivity.
Qed.

End Earlier.

Lemma Metadata_Merge_agrees_witness :
  Metadata.Merge 3
    (Metadata.mkPCMAudioMetadata (headers_of sample_left) (valid sample_left))
    (Metadata.mkPCMAudioMetadata (headers_of sample_right) (valid sample_right))
    (data sample_left) (data sample_right) equal_world
  = Merge 3 sample_left sample_right equal_world.
Proof.
  apply (Metadata_Merge_agrees 3 sample_left sample_right equal_world).
  unfold is_u16. simpl. lia.
Defined.

(** ** The output of [Merge] as a file *)

(** X13.  What [Merge] writes to an empty sink can be opened again:
    [NewPCMAudio] on it returns the header that [Merge] built, and
    [Validate] accepts that header. *)
Theorem Merge_output_opens_and_validates (fuel : nat) (p other : PCMAudio)
    (w : mem_world) (rL rR : Reader) :
  mergeable p other ->
  wf_headers p ->
  sources w !! data p = Some rL ->
  sources w !! data other = Some rR ->
  (length (payload rL) < fuel)%nat ->
  sink w = [] ->
  exists w',
    Merge fuel p other w = Return None w'
    /\ forall (w2 : mem_world) (k : nat),
         sources w2 !! k = Some (mkReader (sink w') 0) ->
         exists q,
           NewPCMAudio 1 k w2 = Return (Some q, None) (at_cursor w2 k (sink w') 44)
           /\ headers_of q = Merge_headers p other
           /\ snd (Validate q) = (true, None).
Proof.
  intros Hm Hwf HL HR Hfuel Hempty.
  destruct (Merge_total fuel p other w rL rR) as (w' & body & Heq & Hsink); trivial.
  rewrite Hempty in Hsink. cbn [app] in Hsink.
  exists w'. split; [exact Heq|]. intros w2 k Hk. rewrite Hsink in *.
  assert (Hlen : (44 <= length (skipn 0 (encode_headers (Merge_headers p other) ++ body)))%nat)
    by (rewrite drop_0, length_app, encode_headers_length; lia).
  eexists. split; [|split].
  - rewrite (NewPCMAudio_enough w2 1 k _ _ Hk Hlen) by lia.
    rewrite drop_0, take_app_length' by (symmetry; apply encode_headers_length).
    rewrite (decode_encode_headers _ (Merge_headers_wf p other Hwf)). reflexivity.
  - reflexivity.
  - reflexivity.
Qed.

Lemma Merge_output_opens_and_validates_witness :
  exists w',
    Merge 5 sample_left sample_right equal_world = Return None w'
    /\ forall (w2 : mem_world) (k : nat),
         sources w2 !! k = Some (mkReader (sink w') 0) ->
         exists q,
           NewPCMAudio 1 k w2 = Return (Some q, None) (at_cursor w2 k (sink w') 44)
           /\ headers_of q = Merge_headers sample_left sample_right
           /\ snd (Validate q) = (true, None).
Proof.
  apply (Merge_output_opens_and_validates 5 sample_left sample_right equal_world
           (sample_source [x01; x02; x03; x04]) (sample_source [x11; x12; x13; x14])).
  - repeat split; reflexivity.
  - constructor; unfold is_u32, is_u16; simpl; lia.
  - reflexivity.
  - reflexivity.
  - vm_compute. lia.
  - reflexivity.
Defined.

(** X14.  When both payloads hold [n] frames, each header declares the
    length of its payload, and the sizes fit in 32 bits, the header that
    [Merge] writes declares exactly the bytes that follow it: the data size
    is the length of the written samples and the total size is 36 more. *)
Theorem Merge_equal_streams_declared_size (n fuel : nat) (p other : PCMAudio)
    (w : mem_world) (rL rR : Reader) :
  mergeable p other ->
  data p <> data other ->
  sources w !! data p = Some rL ->
  sources w !! data other = Some rR ->
  length (payload rL) = (n * sample_size p)%nat ->
  length (payload rR) = (n * sample_size p)%nat ->
  SubChunk2Size p = Z.of_nat (length (payload rL)) ->
  SubChunk2Size other = Z.of_nat (length (payload rR)) ->
  36 + 2 * Z.of_nat (n * sample_size p) < 2 ^ 32 ->
  (n < fuel)%nat ->
  exists w' body,
    Merge fuel p other w = Return None w'
    /\ sink w' = sink w ++ encode_headers (Merge_headers p other) ++ body
    /\ SubChunk2Size (Merge_headers p other) = Z.of_nat (length body)
    /\ ChunkSize (Merge_headers p other) = 36 + Z.of_nat (length body).
Proof.
  intros Hm Hne HL HR HlenL HlenR HdL HdR Hfit Hfuel.
  destruct (Merge_equal n fuel p other w rL rR) as (w' & Heq & Hsink); trivial.
  exists w', (interleave (sample_size p) n (payload rL) (payload rR)).
  split; [exact Heq|]. split; [exact Hsink|].
  rewrite interleave_length by lia.
  cbn [Merge_headers SubChunk2Size ChunkSize]. rewrite HdL, HdR, HlenL, HlenR.
  unfold u32. pow2.
  rewrite (Z.mod_small (36 + _)) by lia.
  rewrite !Z.mod_small by lia. lia.
Qed.

Lemma Merge_equal_streams_declared_size_witness :
  exists w' body,
    Merge 3 sample_left sample_right equal_world = Return None w'
    /\ sink w' = sink equal_world
                 ++ encode_headers (Merge_headers sample_left sample_right) ++ body
    /\ SubChunk2Size (Merge_headers sample_left sample_right) = Z.of_nat (length body)
    /\ ChunkSize (Merge_headers sample_left sample_right) = 36 + Z.of_nat (length body).
Proof.
  apply (Merge_equal_streams_declared_size 2 3 sample_left sample_right equal_world
           (sample_source [x01; x02; x03; x04]) (sample_source [x11; x12; x13; x14])).
  - repeat split; reflexivity.
  - discriminate.
  - reflexivity.
  - reflexivity.
  - reflexivity.
  - reflexivity.
  - reflexivity.
  - reflexivity.
  - vm_compute. reflexivity.
  - lia.
Defined.

(** ** Payloads of unequal length, and payloads that end within a frame *)

Section Endings.
Variables (p other : PCMAudio) (k : nat).
Variables (sL sR : list byte).
Hypothesis Hne : data p <> data other.
Hypothesis Hk : (0 < k)%nat.

(** The right payload holds exactly [n] frames and the left one at least
    one more: the loop ends after [n + 1] iterations, the last of which
    writes frame [n] of the left payload and a zero frame. *)
Lemma Merge_loop_right_short (n fuel : nat) (bufLeft bufRight : list byte)
    (w : mem_world) (jL jR : nat) :
  cursors p other sL sR w jL jR ->
  length bufLeft = k -> length bufRight = k ->
  (S n * k <= length sL - jL)%nat -> (length sR - jR = n * k)%nat ->
  (n < fuel)%nat ->
  Merge_loop fuel p other k bufLeft bufRight w =
    Next tt (emit (moved p other sL sR w (jL + S n * k) (jR + n * k))
                  (interleave k n (skipn jL sL) (skipn jR sR)
                   ++ firstn k (skipn (jL + n * k) sL) ++ make k)).
Proof using Hne Hk.
  intros Hc HbL HbR HsL HsR Hfuel.
  replace fuel with (n + S (fuel - S n))%nat by lia.
  destruct (Merge_loop_frames p other k sL sR Hne Hk n (S (fuel - S n))
              bufLeft bufRight w jL jR)
    as (bL & bR & HL & HR & ->); trivial; try lia.
  rewrite (Merge_loop_right_end p other k sL sR Hne Hk _ _ _ _
             (jL + n * k)%nat (jR + n * k)%nat).
  - change (moved p other sL sR (emit ?w0 ?x) ?a ?b)
      with (emit (moved p other sL sR w0 a b) x).
    rewrite (moved_moved p other sL sR Hne), emit_emit.
    replace (jL + n * k + k)%nat with (jL + S n * k)%nat by lia.
    reflexivity.
  - apply (moved_cursors p other sL sR Hne w).
  - assumption.
  - lia.
  - lia.
Qed.

(** Less than a frame is left on both sides: zero frames are written in
    place of the two pieces and the loop goes on, both cursors at the
    end. *)
Lemma Merge_loop_pieces (fuel : nat) (bufLeft bufRight : list byte)
    (w : mem_world) (jL jR : nat) :
  cursors p other sL sR w jL jR ->
  length bufLeft = k -> length bufRight = k ->
  (jL < length sL < jL + k)%nat -> (jR < length sR < jR + k)%nat ->
  exists bL bR,
    length bL = k /\ length bR = k /\
    Merge_loop (S fuel) p other k bufLeft bufRight w =
      Merge_loop fuel p other k bL bR
        (emit (moved p other sL sR w (length sL) (length sR)) (make k ++ make k)).
Proof using Hne Hk.
  intros [HL HR] HbL HbR HjL HjR.
  assert (HfL : length (firstn k (skipn jL sL)) = (length sL - jL)%nat)
    by (rewrite length_firstn, length_skipn; lia).
  assert (HfR : length (firstn k (skipn jR sR)) = (length sR - jR)%nat)
    by (rewrite length_firstn, length_skipn; lia).
  exists (fill bufLeft (firstn k (skipn jL sL))), (fill bufRight (firstn k (skipn jR sR))).
  split; [unfold fill; rewrite length_app, length_skipn; lia|].
  split; [unfold fill; rewrite length_app, length_skipn; lia|].
  rewrite Merge_loop_unfold, HbL, HbR.
  run (apply Read_at_more; [eassumption | lia]).
  read_ok.
  run (apply Read_at_more;
       [rewrite at_cursor_lookup_ne by assumption; eassumption | lia]).
  read_ok.
  rewrite HfL, HfR.
  destruct (Nat.eqb_spec (length sL - jL) 0) as [|_]; [lia|].
  destruct (Nat.eqb_spec (length sL - jL) k) as [|_]; [lia|].
  destruct (Nat.eqb_spec (length sR - jR) k) as [|_]; [lia|].
  cbn [is_EOF is_nil orb andb negb].
  run reflexivity. run reflexivity.
  rewrite <- emit_emit.
  replace (jL + (length sL - jL))%nat with (length sL) by lia.
  replace (jR + (length sR - jR))%nat with (length sR) by lia.
  reflexivity.
Qed.

(** Both payloads hold [n] frames and a piece of a frame: after the [2n]
    frames come two zero frames, and the pieces are not written. *)
Lemma Merge_loop_ragged (n fuel : nat) (bufLeft bufRight : list byte)
    (w : mem_world) (jL jR : nat) :
  cursors p other sL sR w jL jR ->
  length bufLeft = k -> length bufRight = k ->
  (n * k < length sL - jL < S n * k)%nat ->
  (n * k < length sR - jR < S n * k)%nat ->
  (S n < fuel)%nat ->
  Merge_loop fuel p other k bufLeft bufRight w =
    Next tt (emit (moved p other sL sR w (length sL) (length sR))
                  (interleave k n (skipn jL sL) (skipn jR sR) ++ make k ++ make k)).
Proof using Hne Hk.
  intros Hc HbL HbR HsL HsR Hfuel.
  replace fuel with (n + S (S (fuel - S (S n))))%nat by lia.
  destruct (Merge_loop_frames p other k sL sR Hne Hk n (S (S (fuel - S (S n))))
              bufLeft bufRight w jL jR)
    as (bL & bR & HL & HR & ->); trivial; try lia.
  destruct (Merge_loop_pieces (S (fuel - S (S n))) bL bR
              (emit (moved p other sL sR w (jL + n * k) (jR + n * k))
                    (interleave k n (skipn jL sL) (skipn jR sR)))
              (jL + n * k)%nat (jR + n * k)%nat)
    as (bL' & bR' & HL' & HR' & ->); trivial; try lia.
  { apply (moved_cursors p other sL sR Hne w). }
  rewrite (Merge_loop_end p other k sL sR Hne _ _ _ _ (length sL) (length sR)).
  - repeat progress change (moved p other sL sR (emit ?w0 ?x) ?a ?b)
      with (emit (moved p other sL sR w0 a b) x).
    rewrite !(moved_moved p other sL sR Hne), !emit_emit. reflexivity.
  - change (moved p other sL sR (emit ?w0 ?x) ?a ?b)
      with (emit (moved p other sL sR w0 a b) x).
    apply (moved_cursors p other sL sR Hne).
  - lia.
  - lia.
Qed.

End Endings.

(** The frames of [m] frames followed by two more. *)
Lemma frames_then_two (k m : nat) (a b c : list byte) :
  length a = (m * k)%nat -> length b = k -> length c = k ->
  length (a ++ b ++ c) = ((m + 2) * k)%nat
  /\ (forall j, (j < m)%nat -> frame k j (a ++ b ++ c) = frame k j a)
  /\ frame k m (a ++ b ++ c) = b
  /\ frame k (m + 1) (a ++ b ++ c) = c.
Proof.
  intros Ha Hb Hc. split; [rewrite !length_app; lia|]. split; [|split].
  - intros j Hj. apply (frame_app_l k j m); assumption.
  - rewrite <- (Nat.add_0_r m) at 1. rewrite (frame_app_r k 0 m) by assumption.
    apply frame_0_app. assumption.
  - rewrite (frame_app_r k 1 m) by assumption.
    rewrite frame_S_app by assumption.
    unfold frame. simpl. apply firstn_all2. lia.
Qed.

Lemma interleaved_then_two (k n : nat) (l r b c body : list byte) :
  body = interleave k n l r ++ b ++ c ->
  (n * k <= length l)%nat -> (n * k <= length r)%nat ->
  length b = k -> length c = k ->
  length body = (2 * (n + 1) * k)%nat
  /\ (forall j, (j < n)%nat ->
        frame k (2 * j) body = frame k j l /\ frame k (2 * j + 1) body = frame k j r)
  /\ frame k (2 * n) body = b
  /\ frame k (2 * n + 1) body = c.
Proof.
  intros -> Hl Hr Hb Hc.
  assert (Hi : length (interleave k n l r) = (2 * n * k)%nat)
    by (apply interleave_length; assumption).
  destruct (frames_then_two k (2 * n) (interleave k n l r) b c Hi Hb Hc)
    as (Hlen & Hpre & Hm & Hm1).
  split; [rewrite Hlen; lia|]. split; [|split; assumption].
  intros j Hj. rewrite !Hpre by lia. apply frame_interleave; assumption.
Qed.

(** X15.  With exactly [n] frames on the left and more on the right,
    however many, [Merge] writes [2(n+1)] frames and returns: the [n]
    pairs, then one zero frame and frame [n] of the right payload.  The
    right frames after that one are not written. *)
Theorem Merge_right_longer (n fuel : nat) (p other : PCMAudio)
    (w : mem_world) (rL rR : Reader) :
  mergeable p other ->
  data p <> data other ->
  (0 < sample_size p)%nat ->
  sources w !! data p = Some rL ->
  sources w !! data other = Some rR ->
  length (payload rL) = (n * sample_size p)%nat ->
  (S n * sample_size p <= length (payload rR))%nat ->
  (n < fuel)%nat ->
  exists w' body,
    Merge fuel p other w = Return None w'
    /\ sink w' = sink w ++ encode_headers (Merge_headers p other) ++ body
    /\ length body = (2 * (n + 1) * sample_size p)%nat
    /\ (forall j, (j < n)%nat ->
          frame (sample_size p) (2 * j) body = frame (sample_size p) j (payload rL)
          /\ frame (sample_size p) (2 * j + 1) body
             = frame (sample_size p) j (payload rR))
    /\ frame (sample_size p) (2 * n) body = make (sample_size p)
    /\ frame (sample_size p) (2 * n + 1) body = frame (sample_size p) n (payload rR).
Proof.
  intros Hm Hne Hk HL HR HlenL HlenR Hfuel.
  destruct (Merge_left_short n fuel p other w rL rR) as (w' & Heq & Hsink); trivial.
  eexists w', _. split; [exact Heq|]. split; [exact Hsink|].
  apply (interleaved_then_two (sample_size p) n (payload rL) (payload rR)
           (make (sample_size p)) (frame (sample_size p) n (payload rR)));
    trivial; try lia.
  - apply repeat_length.
  - unfold frame. rewrite length_firstn, length_skipn. lia.
Qed.

Lemma Merge_right_longer_witness :
  exists w' body,
    Merge 2 sample_left sample_right unequal_world = Return None w'
    /\ sink w' = sink unequal_world
                 ++ encode_headers (Merge_headers sample_left sample_right) ++ body
    /\ length body = (2 * (1 + 1) * sample_size sample_left)%nat
    /\ (forall j, (j < 1)%nat ->
          frame (sample_size sample_left) (2 * j) body
          = frame (sample_size sample_left) j (payload (sample_source [x01; x02]))
          /\ frame (sample_size sample_left) (2 * j + 1) body
             = frame (sample_size sample_left) j
                 (payload (sample_source [x11; x12; x13; x14; x15; x16])))
    /\ frame (sample_size sample_left) (2 * 1) body = make (sample_size sample_left)
    /\ frame (sample_size sample_left) (2 * 1 + 1) body
       = frame (sample_size sample_left) 1
           (payload (sample_source [x11; x12; x13; x14; x15; x16])).
Proof.
  apply (Merge_right_longer 1 2 sample_left sample_right unequal_world
           (sample_source [x01; x02])
           (sample_source [x11; x12; x13; x14; x15; x16])).
  - repeat split; reflexivity.
  - discriminate.
  - vm_compute. lia.
  - reflexivity.
  - reflexivity.
  - reflexivity.
  - vm_compute. lia.
  - lia.
Defined.

(** The loop of [Merge] starts with both cursors on the payloads. *)
Lemma Merge_from_payloads (fuel : nat) (p other : PCMAudio) (w : mem_world)
    (rL rR : Reader) (out : list byte) (jL jR : nat) :
  mergeable p other ->
  data p <> data other ->
  sources w !! data p = Some rL ->
  sources w !! data other = Some rR ->
  (forall w0 : mem_world,
      cursors p other (s rL) (s rR) w0 44 44 ->
      Merge_loop fuel p other (sample_size p)
        (make (sample_size p)) (make (sample_size p)) w0
      = Next tt (emit (moved p other (s rL) (s rR) w0 jL jR) out)) ->
  exists w',
    Merge fuel p other w = Return None w'
    /\ sink w' = sink w ++ encode_headers (Merge_headers p other) ++ out.
Proof.
  intros Hm Hne HL HR Hloop.
  rewrite (Merge_start fuel p other w rL rR) by assumption.
  eexists. split.
  - erewrite bind_Next; [reflexivity|].
    apply Hloop. apply moved_cursors. assumption.
  - simpl. rewrite <- app_assoc. reflexivity.
Qed.

(** X16.  With exactly [n] frames on the right and more on the left,
    [Merge] writes [2(n+1)] frames and returns: the [n] pairs, then frame
    [n] of the left payload and one zero frame.  The left frames after
    that one are not written. *)
Theorem Merge_left_longer (n fuel : nat) (p other : PCMAudio)
    (w : mem_world) (rL rR : Reader) :
  mergeable p other ->
  data p <> data other ->
  (0 < sample_size p)%nat ->
  sources w !! data p = Some rL ->
  sources w !! data other = Some rR ->
  (S n * sample_size p <= length (payload rL))%nat ->
  length (payload rR) = (n * sample_size p)%nat ->
  (n < fuel)%nat ->
  exists w' body,
    Merge fuel p other w = Return None w'
    /\ sink w' = sink w ++ encode_headers (Merge_headers p other) ++ body
    /\ length body = (2 * (n + 1) * sample_size p)%nat
    /\ (forall j, (j < n)%nat ->
          frame (sample_size p) (2 * j) body = frame (sample_size p) j (payload rL)
          /\ frame (sample_size p) (2 * j + 1) body
             = frame (sample_size p) j (payload rR))
    /\ frame (sample_size p) (2 * n) body = frame (sample_size p) n (payload rL)
    /\ frame (sample_size p) (2 * n + 1) body = make (sample_size p).
Proof.
  intros Hm Hne Hk HL HR HlenL HlenR Hfuel.
  unfold payload in *. rewrite length_skipn in HlenL, HlenR.
  destruct (Merge_from_payloads fuel p other w rL rR
              (interleave (sample_size p) n (skipn 44 (s rL)) (skipn 44 (s rR))
               ++ firstn (sample_size p) (skipn (44 + n * sample_size p) (s rL))
               ++ make (sample_size p))
              (44 + S n * sample_size p)%nat (44 + n * sample_size p)%nat)
    as (w' & Heq & Hsink); trivial.
  { intros w0 Hc.
    apply (Merge_loop_right_short p other (sample_size p) (s rL) (s rR) Hne Hk
             n fuel _ _ w0 44%nat 44%nat Hc); trivial; apply repeat_length. }
  eexists w', _. split; [exact Heq|]. split; [exact Hsink|].
  rewrite <- drop_drop.
  apply (interleaved_then_two (sample_size p) n (skipn 44 (s rL)) (skipn 44 (s rR))
           (frame (sample_size p) n (skipn 44 (s rL))) (make (sample_size p)));
    trivial; try (rewrite length_skipn; lia).
  - unfold frame. rewrite length_firstn, !length_skipn. lia.
  - apply repeat_length.
Qed.

Lemma Merge_left_longer_witness :
  exists w' body,
    Merge 2 sample_left sample_right left_longer_world = Return None w'
    /\ sink w' = sink left_longer_world
                 ++ encode_headers (Merge_headers sample_left sample_right) ++ body
    /\ length body = (2 * (1 + 1) * sample_size sample_left)%nat
    /\ (forall j, (j < 1)%nat ->
          frame (sample_size sample_left) (2 * j) body
          = frame (sample_size sample_left) j
              (payload (sample_source [x01; x02; x03; x04; x05; x06]))
          /\ frame (sample_size sample_left) (2 * j + 1) body
             = frame (sample_size sample_left) j (payload (sample_source [x11; x12])))
    /\ frame (sample_size sample_left) (2 * 1) body
       = frame (sample_size sample_left) 1
           (payload (sample_source [x01; x02; x03; x04; x05; x06]))
    /\ frame (sample_size sample_left) (2 * 1 + 1) body = make (sample_size sample_left).
Proof.
  apply (Merge_left_longer 1 2 sample_left sample_right left_longer_world
           (sample_source [x01; x02; x03; x04; x05; x06])
           (sample_source [x11; x12])).
  - repeat split; reflexivity.
  - discriminate.
  - vm_compute. lia.
  - reflexivity.
  - reflexivity.
  - vm_compute. lia.
  - reflexivity.
  - lia.
Defined.

(** X17.  When both payloads end within a frame, after [n] full frames
    each, the two pieces are not written: [Merge] writes the [n] pairs and
    then a pair of zero frames. *)
Theorem Merge_drops_trailing_pieces (n fuel : nat) (p other : PCMAudio)
    (w : mem_world) (rL rR : Reader) :
  mergeable p other ->
  data p <> data other ->
  sources w !! data p = Some rL ->
  sources w !! data other = Some rR ->
  (n * sample_size p < length (payload rL) < S n * sample_size p)%nat ->
  (n * sample_size p < length (payload rR) < S n * sample_size p)%nat ->
  (S n < fuel)%nat ->
  exists w' body,
    Merge fuel p other w = Return None w'
    /\ sink w' = sink w ++ encode_headers (Merge_headers p other) ++ body
    /\ length body = (2 * (n + 1) * sample_size p)%nat
    /\ (forall j, (j < n)%nat ->
          frame (sample_size p) (2 * j) body = frame (sample_size p) j (payload rL)
          /\ frame (sample_size p) (2 * j + 1) body
             = frame (sample_size p) j (payload rR))
    /\ frame (sample_size p) (2 * n) body = make (sample_size p)
    /\ frame (sample_size p) (2 * n + 1) body = make (sample_size p).
Proof.
  intros Hm Hne HL HR HlenL HlenR Hfuel.
  assert (Hk : (0 < sample_size p)%nat) by lia.
  unfold payload in *. rewrite length_skipn in HlenL, HlenR.
  destruct (Merge_from_payloads fuel p other w rL rR
              (interleave (sample_size p) n (skipn 44 (s rL)) (skipn 44 (s rR))
               ++ make (sample_size p) ++ make (sample_size p))
              (length (s rL)) (length (s rR)))
    as (w' & Heq & Hsink); trivial.
  { intros w0 Hc.
    apply (Merge_loop_ragged p other (sample_size p) (s rL) (s rR) Hne Hk
             n fuel _ _ w0 44%nat 44%nat Hc); trivial; apply repeat_length. }
  eexists w', _. split; [exact Heq|]. split; [exact Hsink|].
  apply (interleaved_then_two (sample_size p) n (skipn 44 (s rL)) (skipn 44 (s rR))
           (make (sample_size p)) (make (sample_size p)));
    trivial; try (rewrite length_skipn; lia); apply repeat_length.
Qed.

Lemma Merge_drops_trailing_pieces_witness :
  exists w' body,
    Merge 4 sample_left sample_right ragged_world = Return None w'
    /\ sink w' = sink ragged_world
                 ++ encode_headers (Merge_headers sample_left sample_right) ++ body
    /\ length body = (2 * (2 + 1) * sample_size sample_left)%nat
    /\ (forall j, (j < 2)%nat ->
          frame (sample_size sample_left) (2 * j) body
          = frame (sample_size sample_left) j
              (payload (sample_source [x01; x02; x03; x04; x05]))
          /\ frame (sample_size sample_left) (2 * j + 1) body
             = frame (sample_size sample_left) j
                 (payload (sample_source [x11; x12; x13; x14; x15])))
    /\ frame (sample_size sample_left) (2 * 2) body = make (sample_size sample_left)
    /\ frame (sample_size sample_left) (2 * 2 + 1) body = make (sample_size sample_left).
Proof.
  apply (Merge_drops_trailing_pieces 2 4 sample_left sample_right ragged_world
           (sample_source [x01; x02; x03; x04; x05])
           (sample_source [x11; x12; x13; x14; x15])).
  - repeat split; reflexivity.
  - discriminate.
  - reflexivity.
  - reflexivity.
  - vm_compute. lia.
  - vm_compute. lia.
  - lia.
Defined.

(** ** A bit depth below eight *)

(** X18.  With fewer than eight bits per sample the sample size is zero:
    [Merge] succeeds after a single pass of its loop and writes the header
    and nothing else, whatever the two payloads hold and even when both
    handles share their source. *)
Theorem Merge_zero_sample_size (fuel : nat) (p other : PCMAudio)
    (w : mem_world) (rL rR : Reader) :
  mergeable p other ->
  0 <= BitsPerSample p < 8 ->
  sources w !! data p = Some rL ->
  sources w !! data other = Some rR ->
  (1 <= fuel)%nat ->
  exists w',
    Merge fuel p other w = Return None w'
    /\ sink w' = sink w ++ encode_headers (Merge_headers p other).
Proof.
  intros Hm Hbits HL HR Hfuel. destruct fuel as [|fuel]; [lia|].
  assert (Hz : sample_size p = 0%nat).
  { unfold sample_size. rewrite Z.div_small by lia. reflexivity. }
  rewrite (Merge_start (S fuel) p other w rL rR) by assumption.
  rewrite Hz. change (make 0) with (@nil byte).
  set (w0 := emit w (encode_headers (Merge_headers p other))).
  destruct (lookup_after_move w0 (data p) (data p) (s rL) 44 rL HL)
    as (r1 & Hr1 & _).
  destruct (lookup_after_move w0 (data p) (data other) (s rL) 44 rR HR)
    as (r2 & Hr2 & _).
  destruct (lookup_after_move (at_cursor w0 (data p) (s rL) 44)
              (data other) (data p) (s rR) 44 r1 Hr1) as (r3 & Hr3 & _).
  destruct (lookup_after_move (at_cursor w0 (data p) (s rL) 44)
              (data other) (data other) (s rR) 44 r2 Hr2) as (r4 & Hr4 & _).
  destruct (Merge_loop_zero p other fuel (moved p other (s rL) (s rR) w0 44 44) r3 r4
              Hr3 Hr4) as (w' & Heq & Hsink).
  exists w'. split.
  - erewrite bind_Next by exact Heq. reflexivity.
  - rewrite Hsink. reflexivity.
Qed.

Lemma Merge_zero_sample_size_witness :
  exists w',
    Merge 1
      (mkPCMAudio (mkHeaders (ChunkID sample_headers) 40 (Format sample_headers)
                     (SubChunk1ID sample_headers) 16 1 1 8000 0 0 4
                     (SubChunk2ID sample_headers) 4) 0 true)
      (mkPCMAudio (mkHeaders (ChunkID sample_headers) 40 (Format sample_headers)
                     (SubChunk1ID sample_headers) 16 1 1 8000 0 0 4
                     (SubChunk2ID sample_headers) 4) 1 true)
      equal_world = Return None w'
    /\ sink w' = sink equal_world
                 ++ encode_headers
                      (Merge_headers
                         (mkPCMAudio (mkHeaders (ChunkID sample_headers) 40
                                        (Format sample_headers)
                                        (SubChunk1ID sample_headers) 16 1 1 8000 0 0 4
                                        (SubChunk2ID sample_headers) 4) 0 true)
                         (mkPCMAudio (mkHeaders (ChunkID sample_headers) 40
                                        (Format sample_headers)
                                        (SubChunk1ID sample_headers) 16 1 1 8000 0 0 4
                                        (SubChunk2ID sample_headers) 4) 1 true)).
Proof.
  apply (Merge_zero_sample_size 1 _ _ equal_world
           (sample_source [x01; x02; x03; x04]) (sample_source [x11; x12; x13; x14])).
  - repeat split; reflexivity.
  - simpl. lia.
  - reflexivity.
  - reflexivity.
  - lia.
Defined.

(** ** Where the cursors were *)

(** X19.  [Merge] seeks both sources to the first payload byte before it
    reads: its result is the same wherever the two cursors were left, be
    it after the header by [NewPCMAudio] or at the end by an earlier
    [Merge]. *)
Theorem Merge_rewinds_sources (fuel : nat) (p other : PCMAudio)
    (w : mem_world) (rL rR : Reader) (jL jR : nat) :
  mergeable p other ->
  data p <> data other ->
  sources w !! data p = Some rL ->
  sources w !! data other = Some rR ->
  Merge fuel p other (moved p other (s rL) (s rR) w jL jR) = Merge fuel p other w.
Proof.
  intros Hm Hne HL HR.
  destruct (moved_cursors p other (s rL) (s rR) Hne w jL jR) as [HL' HR'].
  rewrite (Merge_start fuel p other _ _ _ Hm HL' HR').
  rewrite (Merge_start fuel p other w rL rR Hm HL HR).
  cbn [s].
  change (emit (moved p other (s rL) (s rR) w jL jR)
            (encode_headers (Merge_headers p other)))
    with (moved p other (s rL) (s rR)
            (emit w (encode_headers (Merge_headers p other))) jL jR).
  rewrite (moved_moved p other (s rL) (s rR) Hne). reflexivity.
Qed.

Lemma Merge_rewinds_sources_witness :
  Merge 3 sample_left sample_right
    (moved sample_left sample_right
       (s (sample_source [x01; x02; x03; x04])) (s (sample_source [x11; x12; x13; x14]))
       equal_world 48 17)
  = Merge 3 sample_left sample_right equal_world.
Proof.
  apply (Merge_rewinds_sources 3 sample_left sample_right equal_world
           (sample_source [x01; x02; x03; x04]) (sample_source [x11; x12; x13; x14])
           48 17).
  - repeat split; reflexivity.
  - discriminate.
  - reflexivity.
  - reflexivity.
Defined.

(** ** One handle on both sides *)

Section SameHandle.
Variables (p : PCMAudio) (k : nat) (src : list byte).
Hypothesis Hk : (0 < k)%nat.

(** Two frames left on the one source: the left read takes the first, the
    right read the second, and both are written. *)
Lemma Merge_loop_same_both (fuel : nat) (bufLeft bufRight : list byte)
    (w : mem_world) (j : nat) :
  sources w !! data p = Some (mkReader src j) ->
  length bufLeft = k -> length bufRight = k ->
  (j + 2 * k <= length src)%nat ->
  Merge_loop (S fuel) p p k bufLeft bufRight w =
    Merge_loop fuel p p k (firstn k (skipn j src)) (firstn k (skipn (j + k) src))
      (emit (at_cursor w (data p) src (j + 2 * k)) (firstn (2 * k) (skipn j src))).
Proof using Hk.
  intros Hsrc HbL HbR Hj.
  assert (HfL : length (firstn k (skipn j src)) = k)
    by (rewrite length_firstn, length_skipn; lia).
  assert (HfR : length (firstn k (skipn (j + k) src)) = k)
    by (rewrite length_firstn, length_skipn; lia).
  rewrite Merge_loop_unfold, HbL, HbR.
  run (apply Read_at_more; [eassumption | lia]).
  read_ok. rewrite HfL.
  run (apply Read_at_more; [apply at_cursor_lookup | lia]).
  read_ok.
  rewrite HfR, (Nat.eqb_refl k).
  destruct (Nat.eqb_spec k 0) as [|_]; [lia|].
  cbn [is_EOF is_nil orb andb negb].
  run reflexivity. run reflexivity.
  rewrite !fill_full by congruence.
  replace (firstn (2 * k) (skipn j src))
    with (firstn k (skipn j src) ++ firstn k (skipn (j + k) src))
    by (rewrite <- drop_drop, take_take_drop; f_equal; lia).
  rewrite at_cursor_twice, <- emit_emit.
  replace (j + k + k)%nat with (j + 2 * k)%nat by lia.
  reflexivity.
Qed.

Lemma Merge_loop_same_end (fuel : nat) (bufLeft bufRight : list byte)
    (w : mem_world) (j : nat) :
  sources w !! data p = Some (mkReader src j) ->
  (length src <= j)%nat ->
  Merge_loop (S fuel) p p k bufLeft bufRight w = Next tt (at_cursor w (data p) src j).
Proof using Type.
  clear Hk. intros Hsrc Hj.
  rewrite Merge_loop_unfold.
  run (apply Read_at_end; [eassumption | lia]).
  read_ok.
  run (apply Read_at_end; [apply at_cursor_lookup | lia]).
  read_ok.
  rewrite at_cursor_twice. reflexivity.
Qed.

(** A source with [2m] frames left, read from both sides: the frames go
    to the sink in the order of the source. *)
Lemma Merge_loop_same_source (m fuel : nat) :
  forall (bufLeft bufRight : list byte) (w : mem_world) (j : nat),
  sources w !! data p = Some (mkReader src j) ->
  length bufLeft = k -> length bufRight = k ->
  (length src - j = 2 * m * k)%nat ->
  (m < fuel)%nat ->
  Merge_loop fuel p p k bufLeft bufRight w =
    Next tt (emit (at_cursor w (data p) src (j + 2 * m * k)) (skipn j src)).
Proof using Hk.
  revert fuel. induction m as [|m IH]; intros fuel bufLeft bufRight w j Hsrc HbL HbR Hlen Hfuel;
    (destruct fuel as [|fuel]; [lia|]).
  - rewrite (Merge_loop_same_end fuel bufLeft bufRight w j) by (trivial; lia).
    rewrite skipn_all2 by lia.
    replace (j + 2 * 0 * k)%nat with j by lia.
    unfold emit, at_cursor. simpl. rewrite app_nil_r. reflexivity.
  - rewrite (Merge_loop_same_both fuel bufLeft bufRight w j) by (trivial; lia).
    rewrite (IH fuel _ _ _ (j + 2 * k)%nat).
    + change (at_cursor (emit ?w0 ?x) ?a ?b ?c) with (emit (at_cursor w0 a b c) x).
      rewrite at_cursor_twice, emit_emit.
      replace (j + 2 * k + 2 * m * k)%nat with (j + 2 * S m * k)%nat by lia.
      rewrite <- drop_drop, firstn_skipn. reflexivity.
    + apply at_cursor_lookup.
    + rewrite length_firstn, length_skipn. lia.
    + rewrite length_firstn, length_skipn. lia.
    + lia.
    + lia.
Qed.

End SameHandle.

(** X20.  A handle merged with itself, or two handles that refer to one
    source: the two sides read from the one cursor in turn, so an even
    number [2m] of frames leaves the source as it stands and the output is
    the header followed by the payload, once, not each frame twice. *)
Theorem Merge_one_source_copies_payload (m fuel : nat) (p other : PCMAudio)
    (w : mem_world) (r : Reader) :
  mergeable p other ->
  data p = data other ->
  (0 < sample_size p)%nat ->
  sources w !! data p = Some r ->
  length (payload r) = (2 * m * sample_size p)%nat ->
  (m < fuel)%nat ->
  exists w',
    Merge fuel p other w = Return None w'
    /\ sink w' = sink w ++ encode_headers (Merge_headers p other) ++ payload r.
Proof.
  intros Hm Hsame Hk Hr Hlen Hfuel.
  assert (Hr' : sources w !! data other = Some r) by (rewrite <- Hsame; exact Hr).
  unfold payload in *. rewrite length_skipn in Hlen.
  rewrite (Merge_start fuel p other w r r Hm Hr Hr').
  rewrite (Merge_loop_same_data fuel p p other p) by congruence.
  unfold moved. rewrite <- Hsame, at_cursor_twice.
  eexists. split.
  - erewrite bind_Next; [reflexivity|].
    apply (Merge_loop_same_source p (sample_size p) (s r) Hk m fuel);
      trivial; try apply repeat_length.
    + apply at_cursor_lookup.
    + exact Hlen.
  - simpl. rewrite <- app_assoc. reflexivity.
Qed.

Lemma Merge_one_source_copies_payload_witness :
  exists w',
    Merge 2 sample_left sample_left equal_world = Return None w'
    /\ sink w' = sink equal_world
                 ++ encode_headers (Merge_headers sample_left sample_left)
                 ++ payload (sample_source [x01; x02; x03; x04]).
Proof.
  apply (Merge_one_source_copies_payload 1 2 sample_left sample_left equal_world
           (sample_source [x01; x02; x03; x04])).
  - repeat split; reflexivity.
  - reflexivity.
  - vm_compute. lia.
  - reflexivity.
  - reflexivity.
  - lia.
Defined.
